(** * Juggler: the interactive client, the broker contract and the engine

    The development has four parts.

    - [Cli] embeds [cmd/juggler-client/cmd.go]: the table of connections of
      the interactive client, [getConn], and every command of the
      [commands] table.
    - [Broker] embeds the [broker] package: its package variable
      [DefaultCallTimeout], and the contract of the three streaming
      connections ([ResultsConn], [CallsConn], [PubSubConn]), which the
      package declares as interfaces.
    - [Adapter] models the call queues and the routing of results of the
      backend adapter.
    - [Server] models the per-connection engine that answers inbound
      frames and forwards results and events.

    The adapter and the server are not among the sources embedded here;
    what is modelled after the specification instead says so where it is
    defined. *)

From Stdlib Require Import ZArith Ascii String List Lia Bool.
From stdpp Require Import base tactics option list strings gmap sets.

Local Open Scope Z_scope.
Set Default Proof Using "Type".
(* stdpp's [set_solver] clears hypotheses it may not have introduced. *)
Set Warnings "-clear-no-such-hyp".

(** ** Go runtime conventions shared by the three parts *)

(** A Go computation either completes with a value or panics (index out of
    range).  While it runs it performs observable effects, kept in order. *)
Inductive outcome (A : Type) : Type :=
| Done (a : A)
| Panic.
Arguments Done {A} a.
Arguments Panic {A}.

(** [l[i]] for a Go [int] index [i]: a run-time panic outside [0 <= i < len(l)]. *)
Definition index {A : Type} (l : list A) (i : Z) : outcome A :=
  if (0 <=? i) && (i <? Z.of_nat (length l)) then
    match l !! Z.to_nat i with
    | Some x => Done x
    | None => Panic
    end
  else Panic.

(** [l[i] = x]: same bounds check, then the slot is overwritten in place. *)
Definition store {A : Type} (l : list A) (i : Z) (x : A) : outcome (list A) :=
  if (0 <=? i) && (i <? Z.of_nat (length l)) then Done (<[Z.to_nat i := x]> l)
  else Panic.

(** [len(l)] as a Go [int]. *)
Definition len {A : Type} (l : list A) : Z := Z.of_nat (length l).

(** [len(s)] of a Go string: its number of bytes. *)
Definition slen (s : string) : Z := Z.of_nat (String.length s).

(** [s[lo:hi]] on a string, for [0 <= lo <= hi <= len(s)]. *)
Definition slice (s : string) (lo hi : Z) : string :=
  substring (Z.to_nat lo) (Z.to_nat (hi - lo)) s.

(** [strings.Join(l, sep)]. *)
Definition Join (l : list string) (sep : string) : string := String.concat sep l.

(** A decimal reading of [strconv.Atoi] on a 64-bit platform, used to run
    the client on concrete command lines: an optional sign, at least one
    digit, nothing but digits, and a value that fits an [int]. *)
Definition digit_of (a : ascii) : option Z :=
  let n := Z.of_N (N_of_ascii a) in
  if (48 <=? n) && (n <=? 57) then Some (n - 48) else None.

Fixpoint digits_from (acc : Z) (s : string) : option Z :=
  match s with
  | EmptyString => Some acc
  | String a s' =>
      match digit_of a with
      | Some d => digits_from (acc * 10 + d) s'
      | None => None
      end
  end.

Definition unsigned_dec (s : string) : option Z :=
  match s with
  | EmptyString => None
  | _ => digits_from 0 s
  end.

Definition Atoi64 (s : string) : option Z :=
  let signed :=
    match s with
    | String "+" s' => unsigned_dec s'
    | String "-" s' => Z.opp <$> unsigned_dec s'
    | _ => unsigned_dec s
    end in
  match signed with
  | Some n => if (- 2 ^ 63 <=? n) && (n <=? 2 ^ 63 - 1) then Some n else None
  | None => None
  end.

(** The durations of [time.ParseDuration] that are a whole number of
    seconds, written [<digits>s], in nanoseconds; enough to run the client
    on concrete command lines. *)
Definition ParseSeconds (s : string) : option Z :=
  let n := String.length s in
  match String.get (n - 1) s with
  | Some "s"%char => (fun k => k * 1000000000) <$> unsigned_dec (substring 0 (n - 1) s)
  | _ => None
  end.

(** ** The interactive client ([cmd/juggler-client/cmd.go]) *)

Module Cli.

Section Commands.

(** A live [*client.Client]; the [nil] pointer is [None]. *)
Context {Client : Type}.

(** [strconv.Atoi] and [time.ParseDuration] of the Go library: [None] when
    they return an error.  Durations are nanoseconds. *)
Variable Atoi : string -> option Z.
Variable ParseDuration : string -> option Z.

(** The flags [*defaultConnFlag] and [*defaultSubprotoFlag] of the program. *)
Variable defaultConnFlag : string.
Variable defaultSubprotoFlag : string.

(** The package variable [connections []*client.Client]. *)
Abbreviation Connections := (list (option Client)) (only parsing).

(** The argument handed to [c.Call]: the [nil] interface, a Go string
    (marshaled as a JSON string), or a [*json.RawMessage] (sent as is). *)
Inductive Payload : Type :=
| PldNil
| PldString (v : string)
| PldRaw (rm : string).

(** Lines written with [printErr] and [printf]. *)
Inductive Line : Type :=
| ArgumentError (arg : string)
| InvalidConnectionID (arg : string)
| DialFailed
| Connected (id : Z) (addr : string)
| InvalidTimeout (id : Z)
| InvalidNumber (id : Z)
| NoWriter (id : Z)
| HelpText.

(** What a command does to the outside: what it prints and what it asks
    of a connection.  The line printed after the last request of a command
    returns (the UUID or the error of that request) depends on the peer
    only and is left out. *)
Inductive Effect : Type :=
| Print (l : Line)
| Dial (addr : string) (subs : list string) (logger : Z)
| ConnClose (c : Client)
| WriteControl (c : Client) (st : string)
| WriteMessage (c : Client) (m : string)
| CallReq (c : Client) (uri : string) (pld : Payload) (to : Z)
| PubReq (c : Client) (channel : string) (v : string)
| SubReq (c : Client) (channel : string) (pattern : bool)
| UnsbReq (c : Client) (channel : string) (pattern : bool)
| NextWriter (c : Client)
| RandBytes (c : Client) (n : Z).

(** A command body: a value and the effects performed, or a panic. *)
Definition M (A : Type) : Type := outcome (A * list Effect).

Definition ret {A : Type} (a : A) : M A := Done (a, []).

Definition bind {A B : Type} (f : A -> M B) (m : M A) : M B :=
  match m with
  | Panic => Panic
  | Done (a, w) =>
      match f a with
      | Panic => Panic
      | Done (b, w') => Done (b, w ++ w')
      end
  end.

#[global] Instance M_ret : MRet M := @ret.
#[global] Instance M_bind : MBind M := @bind.

Definition emit (e : Effect) : M unit := Done (tt, [e]).

(** The value a command body returns, its effects forgotten. *)
Definition value {A : Type} (m : M A) : outcome A :=
  match m with
  | Done (a, _) => Done a
  | Panic => Panic
  end.

Definition lift {A : Type} (o : outcome A) : M A :=
  match o with
  | Done a => ret a
  | Panic => Panic
  end.

(** [getConn]: the connection named by a command argument and its slot. *)
Definition getConn (connections : Connections) (arg : string) : M (option Client * Z) :=
  match Atoi arg with
  | None => emit (Print (ArgumentError arg));; ret (None, 0)
  | Some ix =>
      if (0 <? ix) && (ix <=? len connections) then
        c ← lift (index connections (ix - 1));
        match c with
        | Some c => ret (Some c, ix - 1)
        | None => ret (None, 0)
        end
      else ret (None, 0)
  end.

(** The frame shared by every command that names a connection:
    [if c, ix := getConn(args[0]); c != nil { ... } else { printErr(...) }]. *)
Definition withConn {A : Type} (connections : Connections) (args : list string)
    (otherwise : A) (body : Client -> Z -> M A) : M A :=
  a0 ← lift (index args 0);
  '(c, ix) ← getConn connections a0;
  match c with
  | Some c => body c ix
  | None => emit (Print (InvalidConnectionID a0));; ret otherwise
  end.

(** [helpCmd] and [exitCmd] leave the table alone; the read loop stops at
    [exit] by itself. *)
Definition helpCmd (args : list string) (connections : Connections) : M Connections :=
  emit (Print HelpText);; ret connections.

Definition exitCmd (args : list string) (connections : Connections) : M Connections :=
  ret connections.

(** [connectCmd]; [dialed] is what [client.Dial] returned, [None] for an
    error. *)
Definition connectCmd (dialed : option Client) (args : list string)
    (connections : Connections) : M Connections :=
  addr ← (if 0 <? len args then lift (index args 0) else ret defaultConnFlag);
  sub0 ← (if 1 <? len args then lift (index args 1) else ret defaultSubprotoFlag);
  emit (Dial addr [sub0] (len connections + 1));;
  match dialed with
  | None => emit (Print DialFailed);; ret connections
  | Some conn =>
      let connections := connections ++ [Some conn] in
      emit (Print (Connected (len connections) addr));; ret connections
  end.

(** [disconnectCmd]. *)
Definition disconnectCmd (args : list string) (connections : Connections) : M Connections :=
  withConn connections args connections (fun c ix =>
    emit (ConnClose c);;
    lift (store connections ix None)).

(** [closeCmd]. *)
Definition closeCmd (args : list string) (connections : Connections) : M Connections :=
  withConn connections args connections (fun c ix =>
    st ← (if 1 <? len args then lift (index args 1) else ret "bye"%string);
    emit (WriteControl c st);; ret connections).

(** [sendCmd]. *)
Definition sendCmd (args : list string) (connections : Connections) : M Connections :=
  withConn connections args connections (fun c ix =>
    emit (WriteMessage c (Join (drop 1 args) " "));; ret connections).

(** The payload chosen by [callCmd] (the lines between the timeout and
    [c.Call]): [v] and [pld] start as the zero string and the nil interface. *)
Definition backtick : ascii := "`"%char.

Definition wrapped (v : string) : bool :=
  (2 <? slen v)
  && bool_decide (String.get 0 v = Some backtick)
  && bool_decide (String.get (Z.to_nat (slen v - 1)) v = Some backtick).

(** "Wrapped in backticks", as the help text of [callCmd] puts it: longer
    than two bytes, the first and the last of which are backticks. *)
Definition in_backticks (v : string) : Prop :=
  2 < slen v /\
  String.get 0 v = Some backtick /\
  String.get (Z.to_nat (slen v - 1)) v = Some backtick.

Definition callPayload (args : list string) : Payload :=
  let '(v, pld) :=
    if 3 <? len args then
      let v := Join (drop 3 args) " " in (v, PldString v)
    else (EmptyString, PldNil) in
  if wrapped v then PldRaw (slice v 1 (slen v - 1)) else pld.

(** [callCmd]. *)
Definition callCmd (args : list string) (connections : Connections) : M Connections :=
  withConn connections args connections (fun c ix =>
    to ← (if 2 <? len args then
            a2 ← lift (index args 2);
            ret (ParseDuration a2)
          else ret (Some 0));
    match to with
    | None => emit (Print (InvalidTimeout (ix + 1)));; ret connections
    | Some to =>
        let pld := callPayload args in
        uri ← lift (index args 1);
        emit (CallReq c uri pld to);; ret connections
    end).

(** [pubCmd]. *)
Definition pubCmd (args : list string) (connections : Connections) : M Connections :=
  withConn connections args connections (fun c ix =>
    let v := if 2 <? len args then Join (drop 2 args) " " else EmptyString in
    channel ← lift (index args 1);
    emit (PubReq c channel v);; ret connections).

(** [getSubFunc] and [getUnsbFunc]. *)
Definition getSubFunc (pattern : bool) (args : list string)
    (connections : Connections) : M Connections :=
  withConn connections args connections (fun c ix =>
    channel ← lift (index args 1);
    emit (SubReq c channel pattern);; ret connections).

Definition getUnsbFunc (pattern : bool) (args : list string)
    (connections : Connections) : M Connections :=
  withConn connections args connections (fun c ix =>
    channel ← lift (index args 1);
    emit (UnsbReq c channel pattern);; ret connections).

(** [randCmd].  It asks the connection for a writer first; [writer] tells
    whether [conn.NextWriter] gave one.  Without a writer it prints "rand
    failed to get writer" and returns; with one it reads the count, then
    copies that many random bytes to the writer. *)
Definition randCmd (writer : bool) (args : list string)
    (connections : Connections) : M Connections :=
  withConn connections args connections (fun c ix =>
    emit (NextWriter c);;
    if writer then
      n ← (if 1 <? len args then
             a1 ← lift (index args 1);
             ret (Atoi a1)
           else ret (Some 20));
      match n with
      | None => emit (Print (InvalidNumber (ix + 1)));; ret connections
      | Some n => emit (RandBytes c n);; ret connections
      end
    else emit (Print (NoWriter (ix + 1)));; ret connections).

(** The [commands] table: a command line once its first word is looked up,
    with what the network answered where the body branches on it. *)
Inductive Command : Type :=
| Help
| Exit
| Connect (dialed : option Client)
| Disconnect
| Send
| Close
| Call
| Pub
| Sub
| PSub
| Unsb
| PUnsb
| Rand (writer : bool).

Definition Run (cmd : Command) : list string -> Connections -> M Connections :=
  match cmd with
  | Help => helpCmd
  | Exit => exitCmd
  | Connect dialed => connectCmd dialed
  | Disconnect => disconnectCmd
  | Send => sendCmd
  | Close => closeCmd
  | Call => callCmd
  | Pub => pubCmd
  | Sub => getSubFunc false
  | PSub => getSubFunc true
  | Unsb => getUnsbFunc false
  | PUnsb => getUnsbFunc true
  | Rand writer => randCmd writer
  end.

(** A session: the commands typed, in order.  A panic ends the program
    with the table as the last completed command left it. *)
Fixpoint session (cmds : list (Command * list string)) (connections : Connections)
    : Connections :=
  match cmds with
  | [] => connections
  | (cmd, args) :: rest =>
      match Run cmd args connections with
      | Done (connections', _) => session rest connections'
      | Panic => connections
      end
  end.

(** *** Facts about the runtime conventions *)

Lemma index_Done {A : Type} (l : list A) (i : Z) (x : A) :
  index l i = Done x <-> 0 <= i < len l /\ l !! Z.to_nat i = Some x.
Proof.
  unfold index, len. destruct (0 <=? i) eqn:H0; simpl.
  - destruct (i <? Z.of_nat (length l)) eqn:H1.
    + destruct (l !! Z.to_nat i) as [y|] eqn:Hl.
      * split; [intros [= ->]; split; [lia | done] | intros [_ [= ->]]; done].
      * split; [done | intros [_ ?]; done].
    + split; [done | lia].
  - split; [done | lia].
Qed.

Lemma index_in_range {A : Type} (l : list A) (i : Z) :
  0 <= i < len l -> exists x, index l i = Done x /\ l !! Z.to_nat i = Some x.
Proof.
  intros Hi. destruct (lookup_lt_is_Some_2 l (Z.to_nat i)) as [x Hx].
  { unfold len in Hi. lia. }
  exists x. split; [by apply index_Done | done].
Qed.

Lemma store_Done {A : Type} (l l' : list A) (i : Z) (x : A) :
  store l i x = Done l' <-> 0 <= i < len l /\ l' = <[Z.to_nat i := x]> l.
Proof.
  unfold store, len. destruct (0 <=? i) eqn:H0; simpl.
  - destruct (i <? Z.of_nat (length l)) eqn:H1.
    + split; [intros [= <-]; split; [lia | done] | intros [_ ->]; done].
    + split; [done | lia].
  - split; [done | lia].
Qed.

Lemma bind_Done {A B : Type} (m : M A) (f : A -> M B) (b : B) (w : list Effect) :
  m ≫= f = Done (b, w) <->
  exists a w1 w2, m = Done (a, w1) /\ f a = Done (b, w2) /\ w = w1 ++ w2.
Proof.
  unfold mbind, M_bind, bind. split.
  - destruct m as [[a w1]|]; [|done].
    destruct (f a) as [[b' w2]|] eqn:Hf; [|done].
    intros [= <- <-]. by exists a, w1, w2.
  - intros (a & w1 & w2 & -> & -> & ->). done.
Qed.

Lemma lift_Done {A : Type} (o : outcome A) (a : A) (w : list Effect) :
  lift o = Done (a, w) <-> o = Done a /\ w = [].
Proof.
  destruct o as [a'|]; simpl; unfold ret.
  - split; [intros [= -> <-]; done | intros [[= ->] ->]; done].
  - split; [done | intros [? _]; done].
Qed.

(** *** [getConn] *)

(** The three cases of [getConn], by what [Atoi] and the table say. *)
Lemma getConn_error (connections : Connections) (arg : string) :
  Atoi arg = None ->
  getConn connections arg = Done ((None, 0), [Print (ArgumentError arg)]).
Proof. intros H. unfold getConn. by rewrite H. Qed.

Lemma getConn_out_of_range (connections : Connections) (arg : string) (i : Z) :
  Atoi arg = Some i -> ~ (1 <= i <= len connections) ->
  getConn connections arg = Done ((None, 0), []).
Proof.
  intros H Hr. unfold getConn. rewrite H.
  destruct (0 <? i) eqn:H0; simpl; [|done].
  destruct (i <=? len connections) eqn:H1; [lia | done].
Qed.

Lemma getConn_in_range (connections : Connections) (arg : string) (i : Z) :
  Atoi arg = Some i -> 1 <= i <= len connections ->
  exists slot, connections !! Z.to_nat (i - 1) = Some slot /\
    getConn connections arg =
      Done (match slot with Some c => (Some c, i - 1) | None => (None, 0) end, []).
Proof.
  intros H Hr. unfold getConn. rewrite H.
  replace ((0 <? i) && (i <=? len connections)) with true
    by (symmetry; apply andb_true_iff; lia).
  destruct (index_in_range connections (i - 1)) as (slot & Hix & Hl); [lia|].
  exists slot. split; [done|]. rewrite Hix. by destruct slot.
Qed.

(** What [getConn] found when it returns a connection. *)
Lemma getConn_found (connections : Connections) (arg : string) (c : Client) (ix : Z) :
  value (getConn connections arg) = Done (Some c, ix) ->
  exists i, Atoi arg = Some i /\ 1 <= i <= len connections /\
            connections !! Z.to_nat (i - 1) = Some (Some c) /\ ix = i - 1.
Proof.
  destruct (Atoi arg) as [i|] eqn:Ha.
  - destruct (decide (1 <= i <= len connections)) as [Hr|Hr].
    + destruct (getConn_in_range _ _ _ Ha Hr) as (slot & Hl & ->).
      destruct slot as [c0|]; simpl; [|done].
      intros [= -> <-]. by exists i.
    + by rewrite (getConn_out_of_range _ _ _ Ha Hr).
  - by rewrite (getConn_error _ _ Ha).
Qed.

(** C8: [getConn] returns a connection exactly when its argument reads as
    an integer [i] with [1 <= i <= len(connections)] whose slot [i-1] is
    not nil, and then the index returned is [i-1]; in every other case it
    returns nil and index 0; it never panics on an index out of range. *)
Theorem getConn_spec (connections : Connections) (arg : string) :
  (forall c ix,
     value (getConn connections arg) = Done (Some c, ix) <->
     exists i, Atoi arg = Some i /\ 1 <= i <= len connections /\
               connections !! Z.to_nat (i - 1) = Some (Some c) /\ ix = i - 1)
  /\ ((~ exists i c, Atoi arg = Some i /\ 1 <= i <= len connections /\
                     connections !! Z.to_nat (i - 1) = Some (Some c)) ->
      value (getConn connections arg) = Done (None, 0))
  /\ getConn connections arg <> Panic.
Proof.
  destruct (Atoi arg) as [i|] eqn:Ha.
  - destruct (decide (1 <= i <= len connections)) as [Hr|Hr].
    + destruct (getConn_in_range _ _ _ Ha Hr) as (slot & Hl & ->).
      destruct slot as [c0|]; simpl; (split; [|split]); try done.
      * intros c ix. split.
        -- intros [= -> <-]. by exists i.
        -- intros (i' & [= <-] & _ & Hl' & ->). congruence.
      * intros Hno. exfalso. apply Hno. by exists i, c0.
      * intros c ix. split; [done|].
        intros (i' & [= <-] & _ & Hl' & ->). congruence.
    + rewrite (getConn_out_of_range _ _ _ Ha Hr). simpl.
      split; [|done]. intros c ix. split; [done|].
      intros (i' & [= <-] & Hr' & _). done.
  - rewrite (getConn_error _ _ Ha). simpl.
    split; [|done]. intros c ix. split; [done|].
    intros (i' & [=] & _).
Qed.

Lemma getConn_Some (connections : Connections) (arg : string) (c : Client) (ix : Z) :
  value (getConn connections arg) = Done (Some c, ix) ->
  getConn connections arg = Done ((Some c, ix), []).
Proof.
  destruct (Atoi arg) as [i|] eqn:Ha.
  - destruct (decide (1 <= i <= len connections)) as [Hr|Hr].
    + destruct (getConn_in_range _ _ _ Ha Hr) as (slot & _ & ->).
      destruct slot; simpl; [by intros [= -> ->] | done].
    + by rewrite (getConn_out_of_range _ _ _ Ha Hr).
  - by rewrite (getConn_error _ _ Ha).
Qed.

Lemma getConn_None (connections : Connections) (arg : string) (ix : Z) :
  value (getConn connections arg) = Done (None, ix) -> ix = 0.
Proof.
  destruct (Atoi arg) as [i|] eqn:Ha.
  - destruct (decide (1 <= i <= len connections)) as [Hr|Hr].
    + destruct (getConn_in_range _ _ _ Ha Hr) as (slot & _ & ->).
      destruct slot; simpl; [done | by intros [= <-]].
    + rewrite (getConn_out_of_range _ _ _ Ha Hr). by intros [= <-].
  - rewrite (getConn_error _ _ Ha). by intros [= <-].
Qed.

(** *** [callCmd] *)

Lemma wrapped_in_backticks (v : string) : wrapped v = true <-> in_backticks v.
Proof.
  unfold wrapped, in_backticks.
  rewrite !andb_true_iff, !bool_decide_eq_true, Z.ltb_lt.
  split; [intros [[? ?] ?] | intros (? & ? & ?)]; repeat split; assumption.
Qed.

(** A string wrapped in backticks is a backtick, what [v[1 : len(v)-1]]
    keeps, and a backtick. *)
Lemma but_last_then_last (s : string) (n : nat) (b : ascii) :
  String.length s = S n ->
  String.get n s = Some b ->
  s = (substring 0 n s ++ String b EmptyString)%string.
Proof.
  revert n. induction s as [|a s IH]; intros n Hlen Hget; [discriminate Hlen|].
  injection Hlen as Hlen. destruct n as [|m].
  - destruct s; [|discriminate Hlen]. simpl in Hget. by injection Hget as ->.
  - simpl in Hget.
    change (String a s = String a (substring 0 m s ++ String b EmptyString)%string).
    f_equal. by apply IH.
Qed.

Lemma between_backticks (v : string) :
  in_backticks v ->
  v = String backtick (slice v 1 (slen v - 1) ++ String backtick EmptyString)%string.
Proof.
  unfold in_backticks, slice, slen. intros (Hlen & Hfirst & Hlast).
  destruct v as [|a s]; [simpl in Hlen; lia|].
  simpl in Hfirst. injection Hfirst as ->. f_equal.
  simpl String.length in *.
  destruct (String.length s) as [|n] eqn:Hs; [lia|].
  replace (Z.to_nat (Z.of_nat (S (S n)) - 1)) with (S n) in Hlast by lia.
  replace (Z.to_nat 1) with 1%nat by lia.
  replace (Z.to_nat (Z.of_nat (S (S n)) - 1 - 1)) with n by lia.
  simpl in Hlast.
  change (substring 1 n (String backtick s)) with (substring 0 n s).
  by apply but_last_then_last.
Qed.

Lemma callPayload_joined (a0 uri a2 a3 : string) (rest : list string) :
  callPayload (a0 :: uri :: a2 :: a3 :: rest) =
    let v := Join (a3 :: rest) " " in
    if wrapped v then PldRaw (slice v 1 (slen v - 1)) else PldString v.
Proof.
  unfold callPayload.
  replace (3 <? len (a0 :: uri :: a2 :: a3 :: rest)) with true; [done|].
  symmetry. apply Z.ltb_lt. unfold len. simpl length. lia.
Qed.

(** C9: when [callCmd] has arguments after the timeout, it calls with the
    joined arguments stripped of their first and last bytes, as raw JSON,
    exactly when they are longer than two bytes and begin and end with a
    backtick - the raw message, put back between two backticks, is the
    joined arguments; otherwise, and so for the string made of two
    backticks, it calls with the joined arguments as a Go string. *)
Theorem callCmd_payload (connections : Connections)
    (a0 uri a2 a3 : string) (rest : list string) (c : Client) (ix d : Z) :
  value (getConn connections a0) = Done (Some c, ix) ->
  ParseDuration a2 = Some d ->
  exists pld,
    callCmd (a0 :: uri :: a2 :: a3 :: rest) connections
      = Done (connections, [CallReq c uri pld d])
    /\ (pld = PldRaw (slice (Join (a3 :: rest) " ") 1 (slen (Join (a3 :: rest) " ") - 1))
        <-> in_backticks (Join (a3 :: rest) " "))
    /\ ((exists rm, pld = PldRaw rm) <-> in_backticks (Join (a3 :: rest) " "))
    /\ (forall rm, pld = PldRaw rm ->
          Join (a3 :: rest) " "
          = String backtick (rm ++ String backtick EmptyString)%string)
    /\ (pld = PldString (Join (a3 :: rest) " ")
        <-> ~ in_backticks (Join (a3 :: rest) " "))
    /\ (Join (a3 :: rest) " " = "``"%string -> pld = PldString "``").
Proof.
  intros Hc Hd. apply getConn_Some in Hc.
  exists (callPayload (a0 :: uri :: a2 :: a3 :: rest)). split.
  - assert (H1 : index (a0 :: uri :: a2 :: a3 :: rest) 1 = Done uri)
      by (apply index_Done; unfold len; simpl length; split; [lia | done]).
    assert (H2 : index (a0 :: uri :: a2 :: a3 :: rest) 2 = Done a2)
      by (apply index_Done; unfold len; simpl length; split; [lia | done]).
    unfold callCmd, withConn. simpl index. simpl lift.
    unfold mbind, M_bind, bind at 1. simpl.
    rewrite Hc, H1, H2. simpl. rewrite Hd.
    replace (2 <? len (a0 :: uri :: a2 :: a3 :: rest)) with true
      by (symmetry; apply Z.ltb_lt; unfold len; simpl length; lia).
    done.
  - rewrite callPayload_joined. cbv zeta.
    pose proof (wrapped_in_backticks (Join (a3 :: rest) " ")) as Hw.
    destruct (wrapped (Join (a3 :: rest) " ")) eqn:E.
    + assert (Hin : in_backticks (Join (a3 :: rest) " ")) by (by apply Hw).
      split; [done|].
      split; [split; [done | by eexists]|].
      split; [intros rm [= <-]; by apply between_backticks|].
      split; [split; [done | tauto]|].
      intros Heq. rewrite Heq in Hin. destruct Hin as [Hlen _].
      vm_compute in Hlen. done.
    + assert (Hin : ~ in_backticks (Join (a3 :: rest) " ")).
      { intros H. apply Hw in H. done. }
      split; [split; [done | tauto]|].
      split; [split; [by intros [rm ?] | tauto]|].
      split; [done|].
      split; [done|].
      by intros ->.
Qed.

(** *** The table of connections across commands *)

(** Inversion of a command body that completed: split every bind, decide
    every branch. *)
Ltac invM :=
  repeat match goal with
  | H : _ ≫= _ = Done _ |- _ =>
      apply bind_Done in H; destruct H as (? & ? & ? & H & ? & ?)
  | H : lift _ = Done _ |- _ => apply lift_Done in H; destruct H as [H ?]
  | H : ret _ = Done _ |- _ => unfold ret in H
  | H : emit _ = Done _ |- _ => unfold emit in H
  | H : mret _ = Done _ |- _ => unfold mret, M_ret, ret in H
  | H : (let _ := _ in _) = Done _ |- _ => cbv zeta in H
  | H : Done _ = Done _ |- _ => injection H as [= ? ?]
  | H : Panic = Done _ |- _ => discriminate H
  | H : (if ?b then _ else _) = Done _ |- _ => destruct b eqn:?
  | H : match ?x with _ => _ end = Done _ |- _ => destruct x eqn:?
  end; subst.

Lemma withConn_same (connections : Connections) (args : list string)
    (body : Client -> Z -> M Connections) :
  (forall c ix r w, body c ix = Done (r, w) -> r = connections) ->
  forall r w, withConn connections args connections body = Done (r, w) -> r = connections.
Proof.
  intros Hbody r w H. unfold withConn in H. invM; eauto.
Qed.

(** [disconnectCmd] either changes nothing or sets to nil the one slot
    its argument names, which held a connection. *)
Lemma disconnectCmd_Done (args : list string) (connections connections' : Connections)
    (w : list Effect) :
  disconnectCmd args connections = Done (connections', w) ->
  connections' = connections \/
  exists a0 i c, args !! 0%nat = Some a0 /\ Atoi a0 = Some i /\
    1 <= i <= len connections /\
    connections !! Z.to_nat (i - 1) = Some (Some c) /\
    connections' = <[Z.to_nat (i - 1) := None]> connections.
Proof.
  unfold disconnectCmd, withConn. intros H. invM; [|by left].
  right.
  match goal with H : index args 0 = Done ?a |- _ =>
    apply index_Done in H; destruct H as [_ Ha0]; exists a end.
  match goal with H : getConn _ ?a = Done (Some ?c, ?ix, _) |- _ =>
    assert (Hv : value (getConn connections a) = Done (Some c, ix))
      by (by rewrite H);
    apply getConn_found in Hv; destruct Hv as (i & Hi & Hr & Hl & ->);
    exists i, c end.
  match goal with H : store _ _ _ = Done _ |- _ =>
    apply store_Done in H; destruct H as [_ ->] end.
  done.
Qed.

(** With an argument to read, [disconnectCmd] completes: the slot it
    writes is the one [getConn] found in range. *)
Lemma disconnectCmd_total (a0 : string) (rest : list string) (connections : Connections) :
  exists connections' w, disconnectCmd (a0 :: rest) connections = Done (connections', w).
Proof.
  unfold disconnectCmd, withConn.
  assert (H0 : index (a0 :: rest) 0 = Done a0)
    by (apply index_Done; unfold len; simpl length; split; [lia | done]).
  rewrite H0. simpl lift.
  destruct (Atoi a0) as [i|] eqn:Ha.
  - destruct (decide (1 <= i <= len connections)) as [Hr|Hr].
    + destruct (getConn_in_range _ _ _ Ha Hr) as (slot & Hl & Hg).
      destruct slot as [c|].
      * assert (Hs : store connections (i - 1) None
                     = Done (<[Z.to_nat (i - 1) := None]> connections))
          by (apply store_Done; split; [lia | done]).
        eexists _, _. unfold mbind, M_bind, bind. simpl. rewrite Hg, Hs. done.
      * eexists _, _. unfold mbind, M_bind, bind. simpl. rewrite Hg. done.
    + eexists _, _. unfold mbind, M_bind, bind. simpl.
      rewrite (getConn_out_of_range _ _ _ Ha Hr). done.
  - eexists _, _. unfold mbind, M_bind, bind. simpl.
    rewrite (getConn_error _ _ Ha). done.
Qed.

(** [connectCmd] appends the dialed connection, or changes nothing. *)
Lemma connectCmd_Done (dialed : option Client) (args : list string)
    (connections connections' : Connections) (w : list Effect) :
  connectCmd dialed args connections = Done (connections', w) ->
  connections' = connections ++ match dialed with Some c => [Some c] | None => [] end.
Proof.
  unfold connectCmd. intros H. invM; by rewrite ?app_nil_r.
Qed.

(** One command, as seen from the table. *)
Lemma Run_Done (cmd : Command) (args : list string)
    (connections connections' : Connections) (w : list Effect) :
  Run cmd args connections = Done (connections', w) ->
  connections' = connections
  \/ (exists c, cmd = Connect (Some c) /\ connections' = connections ++ [Some c])
  \/ (cmd = Disconnect /\
      exists a0 i c, args !! 0%nat = Some a0 /\ Atoi a0 = Some i /\
        1 <= i <= len connections /\
        connections !! Z.to_nat (i - 1) = Some (Some c) /\
        connections' = <[Z.to_nat (i - 1) := None]> connections).
Proof.
  destruct cmd; simpl; intros H.
  - unfold helpCmd in H. invM. by left.
  - unfold exitCmd in H. invM. by left.
  - apply connectCmd_Done in H. destruct dialed as [c|].
    + right. left. by exists c.
    + left. by rewrite app_nil_r in H.
  - apply disconnectCmd_Done in H. destruct H as [->|H]; [by left | by right; right].
  - left. revert H. apply withConn_same. intros. invM. done.
  - left. revert H. apply withConn_same. intros. invM; done.
  - left. revert H. apply withConn_same. intros. invM; done.
  - left. revert H. apply withConn_same. intros. invM; done.
  - left. revert H. apply withConn_same. intros. invM; done.
  - left. revert H. apply withConn_same. intros. invM; done.
  - left. revert H. apply withConn_same. intros. invM; done.
  - left. revert H. apply withConn_same. intros. invM; done.
  - left. revert H. apply withConn_same. intros. invM; done.
Qed.

(** A slot of the table, across one command: it keeps its content, or it
    held the connection that [disconnect] was asked to drop. *)
Lemma Run_slot (cmd : Command) (args : list string)
    (connections connections' : Connections) (w : list Effect) (k : nat) :
  Run cmd args connections = Done (connections', w) ->
  (k < length connections)%nat ->
  (length connections <= length connections')%nat /\
  (connections' !! k = connections !! k \/
   (connections' !! k = Some None /\ cmd = Disconnect /\
    exists a0, args !! 0%nat = Some a0 /\ Atoi a0 = Some (Z.of_nat k + 1))).
Proof.
  intros H Hk. apply Run_Done in H.
  destruct H as [->|[(c & _ & ->)|(-> & a0 & i & c & Ha0 & Hi & Hr & Hl & ->)]].
  - split; [lia | by left].
  - split; [rewrite length_app; lia | left; by apply lookup_app_l].
  - split; [by rewrite length_insert|].
    destruct (decide (Z.to_nat (i - 1) = k)) as [Heq|Hne].
    + right. split; [|split; [done|]].
      * rewrite <- Heq. apply list_lookup_insert_eq. by rewrite Heq.
      * exists a0. split; [done|]. rewrite Hi. f_equal. lia.
    + left. by apply list_lookup_insert_ne.
Qed.

Lemma session_slot (cmds : list (Command * list string)) :
  forall (connections : Connections) (k : nat),
  (k < length connections)%nat ->
  (length connections <= length (session cmds connections))%nat /\
  (session cmds connections !! k = connections !! k \/
   session cmds connections !! k = Some None) /\
  ((forall args a0, (Disconnect, args) ∈ cmds -> args !! 0%nat = Some a0 ->
                    Atoi a0 <> Some (Z.of_nat k + 1)) ->
   session cmds connections !! k = connections !! k).
Proof.
  induction cmds as [|[cmd args] rest IH]; intros connections k Hk; simpl.
  - split; [lia|]. split; [by left | done].
  - destruct (Run cmd args connections) as [[connections' w]|] eqn:HR.
    + destruct (Run_slot _ _ _ _ _ k HR Hk) as [Hlen Hstep].
      destruct (IH connections' k ltac:(lia)) as (IHlen & IHor & IHkeep).
      split; [lia|]. split.
      * destruct IHor as [IHeq|IHnil]; [|by right].
        rewrite IHeq. destruct Hstep as [->|(-> & _)]; [by left | by right].
      * intros Hno. rewrite IHkeep.
        -- destruct Hstep as [->|(_ & -> & a0 & Ha0 & Hi)]; [done|].
           exfalso. eapply Hno; [by left | done | done].
        -- intros args' a0' Hin. apply Hno. by right.
    + split; [lia|]. split; [by left | done].
Qed.

(** [connectCmd] always completes. *)
Lemma connectCmd_total (dialed : option Client) (args : list string)
    (connections : Connections) :
  exists w, connectCmd dialed args connections =
    Done (connections ++ match dialed with Some c => [Some c] | None => [] end, w).
Proof.
  unfold connectCmd.
  destruct args as [|a0 [|a1 rest]].
  - destruct dialed; simpl; rewrite ?app_nil_r; eexists; done.
  - assert (H0 : index [a0] 0 = Done a0) by done.
    destruct dialed; simpl; rewrite ?app_nil_r; eexists; done.
  - assert (H0 : index (a0 :: a1 :: rest) 0 = Done a0)
      by (apply index_Done; unfold len; simpl length; split; [lia | done]).
    assert (H1 : index (a0 :: a1 :: rest) 1 = Done a1)
      by (apply index_Done; unfold len; simpl length; split; [lia | done]).
    replace (0 <? len (a0 :: a1 :: rest)) with true
      by (symmetry; apply Z.ltb_lt; unfold len; simpl length; lia).
    replace (1 <? len (a0 :: a1 :: rest)) with true
      by (symmetry; apply Z.ltb_lt; unfold len; simpl length; lia).
    rewrite H0, H1.
    destruct dialed; simpl; rewrite ?app_nil_r; eexists; done.
Qed.

(** C10: [disconnect] sets to nil the slot [getConn] returned and leaves
    every other slot and the length of the table as they were; [connect]
    only appends; so, over any session, a slot keeps the connection it
    holds until a [disconnect] names its ID, and a slot set to nil stays
    nil. *)
Theorem connection_ids_stable :
  (forall (a0 : string) (rest : list string) (connections : Connections),
     exists connections' w,
       disconnectCmd (a0 :: rest) connections = Done (connections', w) /\
       length connections' = length connections /\
       (forall c ix, value (getConn connections a0) = Done (Some c, ix) ->
          connections' !! Z.to_nat ix = Some None /\
          forall j, j <> Z.to_nat ix -> connections' !! j = connections !! j) /\
       (forall ix, value (getConn connections a0) = Done (None, ix) ->
          connections' = connections))
  /\ (forall (dialed : option Client) (args : list string) (connections : Connections),
       exists w, connectCmd dialed args connections =
         Done (connections ++ match dialed with Some c => [Some c] | None => [] end, w))
  /\ (forall (cmds : list (Command * list string)) (connections : Connections) (k : nat),
       (k < length connections)%nat ->
       (length connections <= length (session cmds connections))%nat /\
       (connections !! k = Some None ->
          session cmds connections !! k = Some None) /\
       (forall c, session cmds connections !! k = Some (Some c) ->
          connections !! k = Some (Some c)) /\
       ((forall args a0, (Disconnect, args) ∈ cmds -> args !! 0%nat = Some a0 ->
                         Atoi a0 <> Some (Z.of_nat k + 1)) ->
        session cmds connections !! k = connections !! k)).
Proof.
  split; [|split].
  - intros a0 rest connections.
    destruct (disconnectCmd_total a0 rest connections) as (connections' & w & H).
    exists connections', w. split; [done|].
    pose proof (disconnectCmd_Done _ _ _ _ H) as Hd.
    destruct Hd as [->|(a0' & i & c & [= <-] & Hi & Hr & Hl & ->)].
    + split; [done|]. split; [|done].
      intros c ix Hv. exfalso.
      apply getConn_Some in Hv.
      unfold disconnectCmd, withConn in H.
      assert (H0 : index (a0 :: rest) 0 = Done a0)
        by (apply index_Done; unfold len; simpl length; split; [lia | done]).
      rewrite H0 in H. simpl lift in H.
      unfold mbind, M_bind, bind in H. simpl in H. rewrite Hv in H.
      destruct (store connections ix None) as [l|] eqn:Hs; [|done].
      simpl in H. injection H as [= Hl _]. subst l.
      apply store_Done in Hs. destruct Hs as [Hix Heq].
      assert (Hnone : connections !! Z.to_nat ix = Some None).
      { rewrite Heq. apply list_lookup_insert_eq. unfold len in Hix. lia. }
      assert (Hv' : value (getConn connections a0) = Done (Some c, ix))
        by (by rewrite Hv).
      apply getConn_found in Hv'. destruct Hv' as (i & _ & _ & Hl & ->).
      congruence.
    + split; [by rewrite length_insert|]. split.
      * intros c' ix Hv. apply getConn_found in Hv.
        destruct Hv as (i' & Hi' & _ & _ & ->).
        assert (i' = i) by congruence. subst i'. split.
        -- apply list_lookup_insert_eq. unfold len in Hr. lia.
        -- intros j Hj. by apply list_lookup_insert_ne.
      * intros ix Hv. exfalso.
        destruct (getConn_in_range _ _ _ Hi Hr) as (slot & Hl' & Hg).
        rewrite Hg in Hv. rewrite Hl in Hl'. injection Hl' as <-. done.
  - apply connectCmd_total.
  - intros cmds connections k Hk.
    destruct (session_slot cmds connections k Hk) as (Hlen & Hor & Hkeep).
    split; [done|]. split; [|split; [|done]].
    + intros Hnil. destruct Hor as [->|]; done.
    + intros c Hc. destruct Hor as [<-|Hn]; [done | congruence].
Qed.

End Commands.

(** *** The client on concrete command lines

    Connections are numbered handles; the table below has connection 7 at
    ID 1, a disconnected slot at ID 2 and connection 9 at ID 3. *)

Example getConn_live :
  getConn Atoi64 [Some 7%nat; None; Some 9%nat] "3" = Done ((Some 9%nat, 2), []).
Proof. reflexivity. Qed.

Example getConn_plus_sign :
  getConn Atoi64 [Some 7%nat; None; Some 9%nat] "+1" = Done ((Some 7%nat, 0), []).
Proof. reflexivity. Qed.

Example getConn_disconnected :
  getConn Atoi64 [Some 7%nat; None; Some 9%nat] "2" = Done ((None, 0), []).
Proof. reflexivity. Qed.

Example getConn_zero :
  getConn Atoi64 [Some 7%nat; None; Some 9%nat] "0" = Done ((None, 0), []).
Proof. reflexivity. Qed.

Example getConn_negative :
  getConn Atoi64 [Some 7%nat; None; Some 9%nat] "-1" = Done ((None, 0), []).
Proof. reflexivity. Qed.

Example getConn_past_the_end :
  getConn Atoi64 [Some 7%nat; None; Some 9%nat] "4" = Done ((None, 0), []).
Proof. reflexivity. Qed.

Example getConn_not_a_number :
  getConn Atoi64 [Some 7%nat; None; Some 9%nat] "x1"
  = Done ((None, 0), [Print (ArgumentError "x1")]).
Proof. reflexivity. Qed.

Example getConn_overflow :
  getConn Atoi64 [Some 7%nat; None; Some 9%nat] "9223372036854775808"
  = Done ((None, 0), [Print (ArgumentError "9223372036854775808")]).
Proof. reflexivity. Qed.

Example callCmd_raw :
  callCmd Atoi64 ParseSeconds ["1"; "echo"; "2s"; "`[1,"; "2]`"] [Some 7%nat]
  = Done ([Some 7%nat], [CallReq 7%nat "echo" (PldRaw "[1, 2]") 2000000000]).
Proof. reflexivity. Qed.

Example callCmd_two_backticks :
  callCmd Atoi64 ParseSeconds ["1"; "echo"; "2s"; "``"] [Some 7%nat]
  = Done ([Some 7%nat], [CallReq 7%nat "echo" (PldString "``") 2000000000]).
Proof. reflexivity. Qed.

Example callCmd_one_sided :
  callCmd Atoi64 ParseSeconds ["1"; "echo"; "2s"; "`abc"] [Some 7%nat]
  = Done ([Some 7%nat], [CallReq 7%nat "echo" (PldString "`abc") 2000000000]).
Proof. reflexivity. Qed.

Example callCmd_no_args :
  callCmd Atoi64 ParseSeconds ["1"; "echo"] [Some 7%nat]
  = Done ([Some 7%nat], [CallReq 7%nat "echo" PldNil 0]).
Proof. reflexivity. Qed.

(** The hypotheses of [callCmd_payload] hold on a command line. *)
Lemma callCmd_payload_witness :
  value (getConn Atoi64 [Some 7%nat] "1") = Done (Some 7%nat, 0)
  /\ ParseSeconds "2s" = Some 2000000000
  /\ exists pld,
      callCmd Atoi64 ParseSeconds ("1" :: "echo" :: "2s" :: "`[1," :: ["2]`"]) [Some 7%nat]
        = Done ([Some 7%nat], [CallReq 7%nat "echo" pld 2000000000])
      /\ (pld = PldRaw (slice (Join ("`[1," :: ["2]`"]) " ") 1
                             (slen (Join ("`[1," :: ["2]`"]) " ") - 1))
          <-> in_backticks (Join ("`[1," :: ["2]`"]) " "))
      /\ ((exists rm, pld = PldRaw rm) <-> in_backticks (Join ("`[1," :: ["2]`"]) " "))
      /\ (forall rm, pld = PldRaw rm ->
            Join ("`[1," :: ["2]`"]) " "
            = String backtick (rm ++ String backtick EmptyString)%string)
      /\ (pld = PldString (Join ("`[1," :: ["2]`"]) " ")
          <-> ~ in_backticks (Join ("`[1," :: ["2]`"]) " "))
      /\ (Join ("`[1," :: ["2]`"]) " " = "``"%string -> pld = PldString "``").
Proof.
  split; [reflexivity|]. split; [reflexivity|].
  exact (callCmd_payload Atoi64 ParseSeconds [Some 7%nat]
           "1" "echo" "2s" "`[1," ["2]`"] 7%nat 0 2000000000 eq_refl eq_refl).
Defined.

(** [getConn_spec] on the table above: ID 3 is live, ID 2 is not. *)
Lemma getConn_spec_witness :
  (exists i, Atoi64 "3" = Some i /\ 1 <= i <= len [Some 7%nat; None; Some 9%nat] /\
             [Some 7%nat; None; Some 9%nat] !! Z.to_nat (i - 1) = Some (Some 9%nat) /\
             2 = i - 1)
  /\ value (getConn Atoi64 [Some 7%nat; None; Some 9%nat] "2") = Done (None, 0).
Proof.
  destruct (getConn_spec Atoi64 [Some 7%nat; None; Some 9%nat] "3") as (Hiff & _ & _).
  destruct (getConn_spec Atoi64 [Some 7%nat; None; Some 9%nat] "2") as (_ & Hnil & _).
  split.
  - apply (proj1 (Hiff 9%nat 2)). reflexivity.
  - apply Hnil. intros (i & c & Hi & _ & Hl).
    injection Hi as <-. simpl in Hl. discriminate Hl.
Defined.

(** [connection_ids_stable] on a session that connects, then disconnects
    ID 1: the connection at ID 2 stays where it is. *)
Lemma connection_ids_stable_witness :
  (1 < length [Some 7%nat; Some 9%nat])%nat
  /\ (forall args a0,
        (Disconnect, args) ∈ [(Connect (Some 8%nat), []); (Disconnect, ["1"%string])] ->
        args !! 0%nat = Some a0 -> Atoi64 a0 <> Some (Z.of_nat 1 + 1))
  /\ session Atoi64 ParseSeconds "ws://localhost:9000/ws" "juggler.0"
        [(Connect (Some 8%nat), []); (Disconnect, ["1"%string])] [Some 7%nat; Some 9%nat]
        !! 1%nat
      = [Some 7%nat; Some 9%nat] !! 1%nat.
Proof.
  assert (Hlen : (1 < length [Some 7%nat; Some 9%nat])%nat) by (simpl; lia).
  assert (Hno : forall args a0,
            (Disconnect, args)
              ∈ [(Connect (Some 8%nat), @nil string); (Disconnect, ["1"%string])] ->
            args !! 0%nat = Some a0 -> Atoi64 a0 <> Some (Z.of_nat 1 + 1)).
  { intros args a0 Hin Ha0.
    apply elem_of_cons in Hin as [Hin|Hin]; [discriminate Hin|].
    apply list_elem_of_singleton in Hin. injection Hin as ->.
    injection Ha0 as <-. vm_compute. discriminate. }
  split; [exact Hlen|]. split; [exact Hno|].
  destruct (connection_ids_stable (Client := nat) Atoi64 ParseSeconds
              "ws://localhost:9000/ws" "juggler.0") as (_ & _ & Hsession).
  destruct (Hsession [(Connect (Some 8%nat), []); (Disconnect, ["1"%string])]
              [Some 7%nat; Some 9%nat] 1%nat Hlen) as (_ & _ & _ & Hkeep).
  exact (Hkeep Hno).
Defined.

Example session_keeps_ids :
  session Atoi64 ParseSeconds "ws://localhost:9000/ws" "juggler.0"
    [(Connect (Some 7%nat), []); (Connect (Some 8%nat), []);
     (Disconnect, ["1"]); (Connect (Some 9%nat), []); (Disconnect, ["1"])] []
  = [None; Some 8%nat; Some 9%nat].
Proof. reflexivity. Qed.

(** *** More of the commands: arguments, errors, and what a command touches *)

Section MoreCommands.

Context {Client : Type}.
Variable Atoi : string -> option Z.
Variable ParseDuration : string -> option Z.
Variable defaultConnFlag : string.
Variable defaultSubprotoFlag : string.

(** The [MinArgs] field of each entry of the [commands] table. *)
Definition MinArgs (cmd : Command (Client := Client)) : Z :=
  match cmd with
  | Help => 0
  | Exit => 0
  | Connect _ => 0
  | Disconnect => 1
  | Close => 1
  | Send => 2
  | Call => 2
  | Pub => 2
  | Sub => 2
  | PSub => 2
  | Unsb => 2
  | PUnsb => 2
  | Rand _ => 1
  end.

(** The commands whose first argument is a CONN_ID. *)
Definition namesConn (cmd : Command (Client := Client)) : bool :=
  match cmd with
  | Help | Exit | Connect _ => false
  | _ => true
  end.

(** The commands that, on a live connection, make one request and branch
    on nothing else. *)
Definition oneRequest (cmd : Command (Client := Client)) : bool :=
  match cmd with
  | Send | Close | Pub | Sub | PSub | Unsb | PUnsb => true
  | _ => false
  end.

(** The connection an effect is performed on, if any. *)
Definition target (e : Effect (Client := Client)) : option Client :=
  match e with
  | Print _ => None
  | Dial _ _ _ => None
  | ConnClose c => Some c
  | WriteControl c _ => Some c
  | WriteMessage c _ => Some c
  | CallReq c _ _ _ => Some c
  | PubReq c _ _ => Some c
  | SubReq c _ _ => Some c
  | UnsbReq c _ _ => Some c
  | NextWriter c => Some c
  | RandBytes c _ => Some c
  end.

(** How many commands of a session dialed successfully. *)
Fixpoint connects (cmds : list (Command (Client := Client) * list string)) : nat :=
  match cmds with
  | [] => 0%nat
  | (Connect (Some _), _) :: rest => S (connects rest)
  | _ :: rest => connects rest
  end.

Abbreviation run1 := (Run Atoi ParseDuration defaultConnFlag defaultSubprotoFlag)
  (only parsing).
Abbreviation runAll := (session Atoi ParseDuration defaultConnFlag defaultSubprotoFlag)
  (only parsing).

(** **** Binds that complete, binds that panic *)

Lemma bind_ret_nil {A B : Type} (a : A) (f : A -> M (Client := Client) B) :
  Done (a, []) ≫= f = f a.
Proof. unfold mbind, M_bind, bind. by destruct (f a) as [[b w]|]. Qed.

Lemma bind_Panic {A B : Type} (m : M (Client := Client) A) (f : A -> M B) :
  m ≫= f = Panic -> m = Panic \/ exists a w, m = Done (a, w) /\ f a = Panic.
Proof.
  unfold mbind, M_bind, bind. destruct m as [[a w]|]; [|by left].
  destruct (f a) as [[b w']|] eqn:Hf; [done|]. right. by exists a, w.
Qed.

Lemma index_Panic {A : Type} (l : list A) (i : Z) :
  index l i = Panic -> ~ (0 <= i < len l).
Proof.
  intros H Hr. destruct (index_in_range l i Hr) as (x & Hx & _). congruence.
Qed.

Lemma store_Panic {A : Type} (l : list A) (i : Z) (x : A) :
  store l i x = Panic -> ~ (0 <= i < len l).
Proof.
  intros H Hr. assert (store l i x = Done (<[Z.to_nat i := x]> l)) by (by apply store_Done).
  congruence.
Qed.

Lemma getConn_total (connections : list (option Client)) (arg : string) :
  exists r w, getConn Atoi connections arg = Done (r, w).
Proof.
  destruct (Atoi arg) as [i|] eqn:Ha.
  - destruct (decide (1 <= i <= len connections)) as [Hr|Hr].
    + destruct (getConn_in_range Atoi _ _ _ Ha Hr) as (slot & _ & ->). by eexists _, _.
    + rewrite (getConn_out_of_range Atoi _ _ _ Ha Hr). by eexists _, _.
  - rewrite (getConn_error Atoi _ _ Ha). by eexists _, _.
Qed.

(** What [getConn] prints: a line when the argument does not parse,
    nothing otherwise. *)
Lemma getConn_prints (connections : list (option Client)) (arg : string)
    (r : option Client * Z) (w : list Effect) :
  getConn Atoi connections arg = Done (r, w) ->
  w = match Atoi arg with None => [Print (ArgumentError arg)] | Some _ => [] end.
Proof.
  destruct (Atoi arg) as [i|] eqn:Ha.
  - destruct (decide (1 <= i <= len connections)) as [Hr|Hr].
    + destruct (getConn_in_range Atoi _ _ _ Ha Hr) as (slot & _ & ->). by intros [= _ <-].
    + rewrite (getConn_out_of_range Atoi _ _ _ Ha Hr). by intros [= _ <-].
  - rewrite (getConn_error Atoi _ _ Ha). by intros [= _ <-].
Qed.

(** The two ways through the frame of a command. *)
Lemma withConn_live {A : Type} (connections : list (option Client)) (a0 : string)
    (rest : list string) (otherwise : A) (body : Client -> Z -> M A) (c : Client) (ix : Z) :
  value (getConn Atoi connections a0) = Done (Some c, ix) ->
  withConn Atoi connections (a0 :: rest) otherwise body = body c ix.
Proof.
  intros Hv. apply getConn_Some in Hv.
  assert (H0 : index (a0 :: rest) 0 = Done a0)
    by (apply index_Done; unfold len; simpl length; split; [lia | done]).
  unfold withConn. rewrite H0. simpl lift. unfold ret.
  rewrite bind_ret_nil, Hv, bind_ret_nil. done.
Qed.

Lemma withConn_dead {A : Type} (connections : list (option Client)) (a0 : string)
    (rest : list string) (otherwise : A) (body : Client -> Z -> M A) (ix : Z) :
  value (getConn Atoi connections a0) = Done (None, ix) ->
  withConn Atoi connections (a0 :: rest) otherwise body
  = Done (otherwise,
          match Atoi a0 with None => [Print (ArgumentError a0)] | Some _ => [] end
          ++ [Print (InvalidConnectionID a0)]).
Proof.
  intros Hv.
  destruct (getConn_total connections a0) as ([oc ix'] & w & Hg).
  pose proof (getConn_prints _ _ _ _ Hg) as Hw. rewrite Hg in Hv. simpl in Hv.
  injection Hv as -> ->.
  assert (H0 : index (a0 :: rest) 0 = Done a0)
    by (apply index_Done; unfold len; simpl length; split; [lia | done]).
  unfold withConn. rewrite H0. simpl lift. unfold ret.
  rewrite bind_ret_nil, Hg. unfold mbind, M_bind, bind. simpl. by rewrite Hw.
Qed.

(** X1: a command given a CONN_ID that names no live connection prints
    "invalid connection ID" - after "argument error" when the ID is not a
    number - and does nothing else: the table is as it was and no
    connection is touched. *)
Theorem unknown_id_only_prints (cmd : Command) (a0 : string) (rest : list string)
    (connections : list (option Client)) (ix : Z) :
  namesConn cmd = true ->
  value (getConn Atoi connections a0) = Done (None, ix) ->
  run1 cmd (a0 :: rest) connections
  = Done (connections,
          match Atoi a0 with None => [Print (ArgumentError a0)] | Some _ => [] end
          ++ [Print (InvalidConnectionID a0)]).
Proof.
  intros Hn Hv.
  destruct cmd; try discriminate Hn; simpl;
    unfold disconnectCmd, sendCmd, closeCmd, callCmd, pubCmd, getSubFunc, getUnsbFunc,
      randCmd;
    exact (withConn_dead _ _ _ _ _ _ Hv).
Qed.

(** **** Panics *)

Lemma lift_Panic {A : Type} (o : outcome A) :
  lift (Client := Client) o = Panic -> o = Panic.
Proof. by destruct o. Qed.

Ltac invP :=
  repeat match goal with
  | H : _ ≫= _ = Panic |- _ =>
      apply bind_Panic in H; destruct H as [H|(? & ? & _ & H)]
  | H : lift _ = Panic |- _ => apply lift_Panic in H
  | H : index _ _ = Panic |- _ => apply index_Panic in H
  | H : store _ _ _ = Panic |- _ => apply store_Panic in H
  | H : ret _ = Panic |- _ => discriminate H
  | H : emit _ = Panic |- _ => discriminate H
  | H : Done _ = Panic |- _ => discriminate H
  | H : (let _ := _ in _) = Panic |- _ => cbv zeta in H
  | H : (if ?b then _ else _) = Panic |- _ => destruct b eqn:?
  | H : match ?x with _ => _ end = Panic |- _ => destruct x eqn:?
  end.

Ltac bounds :=
  repeat match goal with
  | H : (_ <? _) = true |- _ => apply Z.ltb_lt in H
  | H : (_ <? _) = false |- _ => apply Z.ltb_ge in H
  end;
  unfold len in *; simpl length in *; lia.

Lemma withConn_Panic {A : Type} (connections : list (option Client)) (args : list string)
    (otherwise : A) (body : Client -> Z -> M A) :
  withConn Atoi connections args otherwise body = Panic ->
  args = [] \/
  exists a0 rest c ix, args = a0 :: rest /\
    value (getConn Atoi connections a0) = Done (Some c, ix) /\ body c ix = Panic.
Proof.
  destruct args as [|a0 rest]; [by left|]. intros H. right.
  destruct (getConn_total connections a0) as ([[c|] ix] & w & Hg).
  - exists a0, rest, c, ix. split; [done|].
    assert (Hv : value (getConn Atoi connections a0) = Done (Some c, ix)) by (by rewrite Hg).
    split; [done|]. by rewrite (withConn_live _ _ _ _ _ _ _ Hv) in H.
  - assert (Hv : value (getConn Atoi connections a0) = Done (None, ix)) by (by rewrite Hg).
    by rewrite (withConn_dead _ _ _ _ _ _ Hv) in H.
Qed.

(** A command panics only when it has fewer arguments than its [MinArgs]. *)
Lemma Run_Panic (cmd : Command) (args : list string) (connections : list (option Client)) :
  run1 cmd args connections = Panic -> len args < MinArgs cmd.
Proof.
  destruct cmd; simpl; intros H.
  - discriminate H.
  - discriminate H.
  - destruct (connectCmd_total defaultConnFlag defaultSubprotoFlag dialed args connections)
      as [w Hw]. congruence.
  - apply withConn_Panic in H as [->|(a0 & rest & c & ix & -> & Hv & H)]; [done|].
    apply getConn_found in Hv as (i & _ & Hr & _ & ->). invP. bounds.
  - apply withConn_Panic in H as [->|(a0 & rest & c & ix & -> & Hv & H)]; [done|].
    invP.
  - apply withConn_Panic in H as [->|(a0 & rest & c & ix & -> & Hv & H)]; [done|].
    invP; bounds.
  - apply withConn_Panic in H as [->|(a0 & rest & c & ix & -> & Hv & H)]; [done|].
    invP; bounds.
  - apply withConn_Panic in H as [->|(a0 & rest & c & ix & -> & Hv & H)]; [done|].
    invP; bounds.
  - apply withConn_Panic in H as [->|(a0 & rest & c & ix & -> & Hv & H)]; [done|].
    invP; bounds.
  - apply withConn_Panic in H as [->|(a0 & rest & c & ix & -> & Hv & H)]; [done|].
    invP; bounds.
  - apply withConn_Panic in H as [->|(a0 & rest & c & ix & -> & Hv & H)]; [done|].
    invP; bounds.
  - apply withConn_Panic in H as [->|(a0 & rest & c & ix & -> & Hv & H)]; [done|].
    invP; bounds.
  - apply withConn_Panic in H as [->|(a0 & rest & c & ix & -> & Hv & H)]; [done|].
    invP; bounds.
Qed.

(** X2: a command given at least [MinArgs] arguments completes: no index
    into the arguments or into the table is out of range. *)
Theorem enough_args_no_panic (cmd : Command) (args : list string)
    (connections : list (option Client)) :
  MinArgs cmd <= len args ->
  exists connections' w, run1 cmd args connections = Done (connections', w).
Proof.
  intros Hmin.
  destruct (run1 cmd args connections) as [[connections' w]|] eqn:HR.
  - by exists connections', w.
  - apply Run_Panic in HR. lia.
Qed.

(** **** Evaluating a command on a command line *)

Lemma index_at_0 {A : Type} (x : A) (l : list A) : index (x :: l) 0 = Done x.
Proof. apply index_Done. unfold len. simpl length. split; [lia | done]. Qed.

Lemma index_at_1 {A : Type} (x y : A) (l : list A) : index (x :: y :: l) 1 = Done y.
Proof. apply index_Done. unfold len. simpl length. split; [lia | done]. Qed.

Lemma index_at_2 {A : Type} (x y z : A) (l : list A) : index (x :: y :: z :: l) 2 = Done z.
Proof. apply index_Done. unfold len. simpl length. split; [lia | done]. Qed.

Lemma len_snoc {A : Type} (l : list A) (x : A) : len (l ++ [x]) = len l + 1.
Proof. unfold len. rewrite length_app. simpl. lia. Qed.

(** Decide a comparison of a constant with the length of a list whose
    first cells are known. *)
Ltac decide_len :=
  repeat match goal with
  | |- context [?k <? len ?l] =>
      first
        [ replace (k <? len l) with true
            by (symmetry; apply Z.ltb_lt; unfold len; simpl length; lia)
        | replace (k <? len l) with false
            by (symmetry; apply Z.ltb_ge; unfold len; simpl length; lia) ]
  end.

Ltac eval_body :=
  decide_len; rewrite ?index_at_0, ?index_at_1, ?index_at_2; simpl lift; unfold ret, emit;
  unfold mbind, M_bind, bind; simpl.

(** X3: [connect] dials the first argument, or the default address, with
    the second argument, or the default subprotocol; the handler it
    installs, the line it prints and the slot it fills all carry the same
    ID, one more than the length of the table, and [getConn] on that ID
    finds the new connection; a dial that fails leaves the table as it
    was. *)
Theorem connect_assigns_next_id (args : list string) (connections : list (option Client)) :
  (forall (c : Client) (id : string),
     Atoi id = Some (len connections + 1) ->
     connectCmd defaultConnFlag defaultSubprotoFlag (Some c) args connections
     = Done (connections ++ [Some c],
             [Dial (default defaultConnFlag (args !! 0%nat))
                   [default defaultSubprotoFlag (args !! 1%nat)] (len connections + 1);
              Print (Connected (len connections + 1)
                       (default defaultConnFlag (args !! 0%nat)))])
     /\ getConn Atoi (connections ++ [Some c]) id = Done ((Some c, len connections), []))
  /\ connectCmd defaultConnFlag defaultSubprotoFlag None args connections
     = Done (connections,
             [Dial (default defaultConnFlag (args !! 0%nat))
                   [default defaultSubprotoFlag (args !! 1%nat)] (len connections + 1);
              Print DialFailed]).
Proof.
  split.
  - intros c id Hid. split.
    + unfold connectCmd. rewrite len_snoc.
      destruct args as [|a0 [|a1 rest]]; eval_body; done.
    + destruct (getConn_in_range Atoi (connections ++ [Some c]) id _ Hid)
        as (slot & Hl & ->); [rewrite len_snoc; unfold len; lia|].
      replace (Z.to_nat (len connections + 1 - 1)) with (length connections) in Hl
        by (unfold len; lia).
      rewrite list_lookup_middle in Hl by done. injection Hl as <-.
      do 3 f_equal. lia.
  - unfold connectCmd. destruct args as [|a0 [|a1 rest]]; eval_body; done.
Qed.

(** X4: [disconnect] of a live ID closes that connection and nothing
    else; afterwards the ID names no connection, and disconnecting it
    again only prints "invalid connection ID". *)
Theorem disconnect_then_unknown (a0 : string) (rest : list string)
    (connections : list (option Client)) (c : Client) (ix : Z) :
  value (getConn Atoi connections a0) = Done (Some c, ix) ->
  exists connections',
    disconnectCmd Atoi (a0 :: rest) connections = Done (connections', [ConnClose c]) /\
    value (getConn Atoi connections' a0) = Done (None, 0) /\
    forall rest',
      disconnectCmd Atoi (a0 :: rest') connections'
      = Done (connections', [Print (InvalidConnectionID a0)]).
Proof.
  intros Hv. pose proof (getConn_found Atoi _ _ _ _ Hv) as (i & Hi & Hr & Hl & ->).
  exists (<[Z.to_nat (i - 1) := None]> connections).
  assert (Hs : store connections (i - 1) None
               = Done (<[Z.to_nat (i - 1) := None]> connections))
    by (apply store_Done; split; [lia | done]).
  assert (Hv' : value (getConn Atoi (<[Z.to_nat (i - 1) := None]> connections) a0)
                = Done (None, 0)).
  { destruct (getConn_in_range Atoi (<[Z.to_nat (i - 1) := None]> connections) a0 i Hi)
      as (slot & Hl' & ->); [unfold len in *; rewrite length_insert; lia|].
    rewrite list_lookup_insert_eq in Hl' by (unfold len in Hr; lia).
    by injection Hl' as <-. }
  split; [|split; [exact Hv'|]].
  - unfold disconnectCmd. rewrite (withConn_live _ _ _ _ _ _ _ Hv).
    unfold emit. rewrite Hs. done.
  - intros rest'. unfold disconnectCmd.
    rewrite (withConn_dead _ _ _ _ _ _ Hv'), Hi. done.
Qed.

(** X5: [call] with a timeout that does not parse sends nothing to the
    connection: it prints "invalid timeout" under the ID the user typed
    and leaves the table as it was. *)
Theorem call_bad_timeout (a0 uri a2 : string) (rest : list string)
    (connections : list (option Client)) (c : Client) (ix : Z) :
  value (getConn Atoi connections a0) = Done (Some c, ix) ->
  ParseDuration a2 = None ->
  callCmd Atoi ParseDuration (a0 :: uri :: a2 :: rest) connections
  = Done (connections, [Print (InvalidTimeout (ix + 1))])
  /\ Atoi a0 = Some (ix + 1).
Proof.
  intros Hv Hd. split.
  - unfold callCmd. rewrite (withConn_live _ _ _ _ _ _ _ Hv). eval_body.
    rewrite Hd. done.
  - apply getConn_found in Hv as (i & Hi & _ & _ & ->). rewrite Hi. f_equal. lia.
Qed.

(** X6: [call] without ARGS sends the nil payload, not an empty string,
    with timeout zero when TIMEOUT_SEC is left out too. *)
Theorem call_without_args (a0 uri : string) (connections : list (option Client))
    (c : Client) (ix : Z) :
  value (getConn Atoi connections a0) = Done (Some c, ix) ->
  callCmd Atoi ParseDuration [a0; uri] connections
  = Done (connections, [CallReq c uri PldNil 0])
  /\ forall a2 d, ParseDuration a2 = Some d ->
       callCmd Atoi ParseDuration [a0; uri; a2] connections
       = Done (connections, [CallReq c uri PldNil d]).
Proof.
  intros Hv. split.
  - unfold callCmd. rewrite (withConn_live _ _ _ _ _ _ _ Hv). eval_body. done.
  - intros a2 d Hd. unfold callCmd. rewrite (withConn_live _ _ _ _ _ _ _ Hv). eval_body.
    rewrite Hd. done.
Qed.

(** X7: [rand] asks the connection for a writer before anything else.
    With a writer it copies twenty random bytes by default and the count
    given otherwise; with a count that does not parse it prints "invalid
    number" under the ID the user typed and copies nothing; without a
    writer it prints "rand failed to get writer" under that ID and copies
    nothing.  The table is never changed. *)
Theorem rand_writes (a0 : string) (rest : list string)
    (connections : list (option Client)) (c : Client) (ix : Z) :
  value (getConn Atoi connections a0) = Done (Some c, ix) ->
  randCmd Atoi true [a0] connections
  = Done (connections, [NextWriter c; RandBytes c 20])
  /\ (forall a1 n, Atoi a1 = Some n ->
        randCmd Atoi true (a0 :: a1 :: rest) connections
        = Done (connections, [NextWriter c; RandBytes c n]))
  /\ (forall a1, Atoi a1 = None ->
        randCmd Atoi true (a0 :: a1 :: rest) connections
        = Done (connections, [NextWriter c; Print (InvalidNumber (ix + 1))]))
  /\ randCmd Atoi false (a0 :: rest) connections
     = Done (connections, [NextWriter c; Print (NoWriter (ix + 1))])
  /\ Atoi a0 = Some (ix + 1).
Proof.
  intros Hv. repeat split.
  - unfold randCmd. rewrite (withConn_live _ _ _ _ _ _ _ Hv). eval_body. done.
  - intros a1 n Hn. unfold randCmd. rewrite (withConn_live _ _ _ _ _ _ _ Hv). eval_body.
    rewrite Hn. done.
  - intros a1 Hn. unfold randCmd. rewrite (withConn_live _ _ _ _ _ _ _ Hv). eval_body.
    rewrite Hn. done.
  - unfold randCmd. rewrite (withConn_live _ _ _ _ _ _ _ Hv). eval_body. done.
  - apply getConn_found in Hv as (i & Hi & _ & _ & ->). rewrite Hi. f_equal. lia.
Qed.

(** **** What a command touches *)

Ltac invD :=
  repeat match goal with
  | H : _ ≫= _ = Done _ |- _ =>
      apply bind_Done in H; destruct H as (? & ? & ? & H & ? & ?)
  | H : lift _ = Done _ |- _ => apply lift_Done in H; destruct H as [H ?]
  | H : ret _ = Done _ |- _ => unfold ret in H
  | H : emit _ = Done _ |- _ => unfold emit in H
  | H : mret _ = Done _ |- _ => unfold mret, M_ret, ret in H
  | H : (let _ := _ in _) = Done _ |- _ => cbv zeta in H
  | H : Done _ = Done _ |- _ => injection H as [= ? ?]
  | H : Panic = Done _ |- _ => discriminate H
  | H : (if ?b then _ else _) = Done _ |- _ => destruct b eqn:?
  | H : match ?x with _ => _ end = Done _ |- _ => destruct x eqn:?
  end; subst.

Ltac members :=
  repeat match goal with
  | H : _ ∈ _ ++ _ |- _ => apply elem_of_app in H; destruct H as [H|H]
  | H : _ ∈ _ :: _ |- _ => apply elem_of_cons in H; destruct H as [H|H]
  | H : _ ∈ [] |- _ => by apply not_elem_of_nil in H
  end.

Lemma withConn_Done {A : Type} (connections : list (option Client)) (a0 : string)
    (rest : list string) (otherwise : A) (body : Client -> Z -> M A)
    (r : A) (w : list Effect) :
  withConn Atoi connections (a0 :: rest) otherwise body = Done (r, w) ->
  (exists c ix, value (getConn Atoi connections a0) = Done (Some c, ix) /\
                body c ix = Done (r, w))
  \/ (r = otherwise /\ forall e, e ∈ w -> target e = None).
Proof.
  intros H. destruct (getConn_total connections a0) as ([[c|] ix] & w0 & Hg).
  - left. exists c, ix.
    assert (Hv : value (getConn Atoi connections a0) = Done (Some c, ix)) by (by rewrite Hg).
    split; [done|]. by rewrite (withConn_live _ _ _ _ _ _ _ Hv) in H.
  - right.
    assert (Hv : value (getConn Atoi connections a0) = Done (None, ix)) by (by rewrite Hg).
    rewrite (withConn_dead _ _ _ _ _ _ Hv) in H. injection H as <- <-.
    split; [done|]. intros e He. destruct (Atoi a0); members; by subst.
Qed.

(** X8: whatever a command that takes a CONN_ID does to a connection, it
    does to the connection that ID names in the table: no command closes,
    writes to or calls on another connection. *)
Theorem commands_touch_named_connection (cmd : Command) (a0 : string) (rest : list string)
    (connections connections' : list (option Client)) (w : list Effect)
    (e : Effect) (c : Client) :
  namesConn cmd = true ->
  run1 cmd (a0 :: rest) connections = Done (connections', w) ->
  e ∈ w -> target e = Some c ->
  exists i, Atoi a0 = Some i /\ 1 <= i <= len connections /\
            connections !! Z.to_nat (i - 1) = Some (Some c).
Proof.
  intros Hn HR He Ht.
  assert (Hfound : forall c' ix, value (getConn Atoi connections a0) = Done (Some c', ix) ->
            c' = c ->
            exists i, Atoi a0 = Some i /\ 1 <= i <= len connections /\
                      connections !! Z.to_nat (i - 1) = Some (Some c)).
  { intros c' ix Hv ->. apply getConn_found in Hv as (i & Hi & Hr & Hl & _). by exists i. }
  destruct cmd; try discriminate Hn; simpl in HR;
    unfold disconnectCmd, sendCmd, closeCmd, callCmd, pubCmd, getSubFunc, getUnsbFunc,
      randCmd in HR;
    apply withConn_Done in HR as [(c' & ix & Hv & Hbody)|[_ Hnone]];
    try (rewrite (Hnone e He) in Ht; discriminate Ht);
    apply (Hfound c' ix Hv); invD; members; subst; simpl in Ht; congruence.
Qed.

(** X9: on a live connection and with its [MinArgs], each of [send],
    [close], [pub], [sub], [psub], [unsb] and [punsb] makes exactly one
    request, to that connection, and leaves the table as it was. *)
Theorem one_request_per_command (cmd : Command) (a0 : string) (rest : list string)
    (connections : list (option Client)) (c : Client) (ix : Z) :
  oneRequest cmd = true ->
  MinArgs cmd <= len (a0 :: rest) ->
  value (getConn Atoi connections a0) = Done (Some c, ix) ->
  exists e, run1 cmd (a0 :: rest) connections = Done (connections, [e]) /\
            target e = Some c.
Proof.
  intros Ho Hmin Hv.
  destruct cmd; try discriminate Ho; simpl in *;
    unfold sendCmd, closeCmd, pubCmd, getSubFunc, getUnsbFunc;
    rewrite (withConn_live _ _ _ _ _ _ _ Hv);
    (destruct rest as [|a1 rest]; [try (unfold len in Hmin; simpl in Hmin; lia)|]);
    eval_body; by eexists.
Qed.

(** X10: in a session where every command has its [MinArgs], the table
    grows by exactly one slot per successful [connect] and by nothing
    else: neither a failed dial nor a [disconnect] changes its length. *)
Theorem table_counts_connects (cmds : list (Command * list string))
    (connections : list (option Client)) :
  Forall (fun ca => MinArgs ca.1 <= len ca.2) cmds ->
  length (runAll cmds connections) = (length connections + connects cmds)%nat.
Proof.
  revert connections. induction cmds as [|[cmd args] cmds IH]; intros connections Hall.
  - simpl. lia.
  - inversion Hall as [|? ? Hmin Hrest]; subst. simpl in Hmin.
    cbn [session].
    destruct (run1 cmd args connections) as [[connections' w]|] eqn:HR;
      [|apply Run_Panic in HR; lia].
    rewrite (IH connections' Hrest).
    destruct cmd as [| |[c|]| | | | | | | | | |];
      try (apply Run_Done in HR
             as [->|[(c0 & Hc & _)|(_ & a & i & c0 & _ & _ & _ & _ & ->)]];
           [simpl; lia | discriminate Hc | rewrite length_insert; simpl; lia]).
    simpl in HR. apply connectCmd_Done in HR. subst connections'.
    rewrite length_app. simpl. lia.
Qed.

(** X11: once a slot of the table is nil, no later command of the session
    reaches a connection through its ID: whatever was typed in between,
    a command given that ID only prints "invalid connection ID". *)
Theorem disconnected_id_stays_unknown (cmds : list (Command * list string))
    (connections : list (option Client)) (k : nat)
    (cmd : Command) (a0 : string) (rest : list string) :
  connections !! k = Some None ->
  namesConn cmd = true ->
  Atoi a0 = Some (Z.of_nat k + 1) ->
  run1 cmd (a0 :: rest) (runAll cmds connections)
  = Done (runAll cmds connections, [Print (InvalidConnectionID a0)]).
Proof.
  intros Hnil Hn Ha.
  assert (Hk : (k < length connections)%nat) by (by eapply lookup_lt_Some).
  destruct (session_slot Atoi ParseDuration defaultConnFlag defaultSubprotoFlag
              cmds connections k Hk) as (Hlen & Hor & _).
  assert (Hslot : runAll cmds connections !! k = Some None)
    by (destruct Hor as [->|]; done).
  assert (Hv : value (getConn Atoi (runAll cmds connections) a0) = Done (None, 0)).
  { destruct (getConn_in_range Atoi (runAll cmds connections) a0 _ Ha)
      as (slot & Hl & ->); [unfold len; lia|].
    replace (Z.to_nat (Z.of_nat k + 1 - 1)) with k in Hl by lia.
    rewrite Hslot in Hl. by injection Hl as <-. }
  destruct cmd; try discriminate Hn; simpl;
    unfold disconnectCmd, sendCmd, closeCmd, callCmd, pubCmd, getSubFunc, getUnsbFunc,
      randCmd;
    rewrite (withConn_dead _ _ _ _ _ _ Hv), Ha; done.
Qed.

End MoreCommands.

(** *** The payload of [call], byte by byte *)

(** X12: what [call] sends is decided by its arguments alone.  A raw
    message is never empty and, put back between two backticks, is the
    ARGS joined by spaces; a string is the ARGS joined by spaces, as they
    are, and is then not wrapped in backticks; and the payload is nil
    exactly when there are no ARGS. *)
Theorem callPayload_cases (args : list string) :
  match callPayload args with
  | PldRaw rm =>
      3 < len args /\ 0 < slen rm /\
      Join (drop 3 args) " " = String backtick (rm ++ String backtick EmptyString)%string
  | PldString v =>
      3 < len args /\ v = Join (drop 3 args) " " /\ ~ in_backticks v
  | PldNil => len args <= 3
  end.
Proof.
  unfold callPayload. destruct (Z.ltb_spec 3 (len args)) as [Hlen|Hlen].
  - pose proof (wrapped_in_backticks (Join (drop 3 args) " ")) as Hw.
    destruct (wrapped (Join (drop 3 args) " ")) eqn:E.
    + assert (Hin : in_backticks (Join (drop 3 args) " ")) by (by apply Hw).
      pose proof (between_backticks _ Hin) as Heq.
      split; [done|]. split; [|done].
      destruct (slice (Join (drop 3 args) " ") 1 (slen (Join (drop 3 args) " ") - 1))
        as [|a rm]; [|unfold slen; simpl; lia].
      destruct Hin as [Hl _]. rewrite Heq in Hl. vm_compute in Hl. discriminate Hl.
    + split; [done|]. split; [done|]. intros Hin. apply Hw in Hin. congruence.
  - simpl. lia.
Qed.

(** *** The handler of a connection ([connMsgLogger.Handle]) *)

Section Logger.

(** [message.Type] and [uuid.UUID], printed as they are, and the constants
    [message.CallMsg] and [message.PubMsg]. *)
Context {MsgType UUID : Type}.
Variable CallMsg : MsgType.
Variable PubMsg : MsgType.

(** A [message.Msg], by the cases of the type switch of [Handle]: what
    [m.Type()] and [m.UUID()] return, then the fields of the payload that
    [Handle] reads. *)
Inductive Msg : Type :=
| NackMsg (t : MsgType) (uuid : UUID) (forType : MsgType) (for_ : UUID) (message : string)
| AckMsg (t : MsgType) (uuid : UUID) (forType : MsgType) (for_ : UUID)
| ResMsg (t : MsgType) (uuid : UUID) (for_ : UUID) (args : string)
| ExpMsg (t : MsgType) (uuid : UUID) (for_ : UUID)
| EvntMsg (t : MsgType) (uuid : UUID) (for_ : UUID) (args : string)
| OtherMsg (t : MsgType) (uuid : UUID).

Definition msgType (m : Msg) : MsgType :=
  match m with
  | NackMsg t _ _ _ _ | AckMsg t _ _ _ | ResMsg t _ _ _ | ExpMsg t _ _
  | EvntMsg t _ _ _ | OtherMsg t _ => t
  end.

Definition msgUUID (m : Msg) : UUID :=
  match m with
  | NackMsg _ u _ _ _ | AckMsg _ u _ _ | ResMsg _ u _ _ | ExpMsg _ u _
  | EvntMsg _ u _ _ | OtherMsg _ u => u
  end.

(** [s[:n]]: a run-time panic outside [0 <= n <= len(s)]. *)
Definition sliceTo (s : string) (n : Z) : outcome string :=
  if (0 <=? n) && (n <=? slen s) then Done (substring 0 (Z.to_nat n) s) else Panic.

(** The string [s] of [Handle]: empty, "for %s %v" or "for %s %v (%s)". *)
Inductive Detail : Type :=
| NoDetail
| For (t : MsgType) (for_ : UUID)
| ForWith (t : MsgType) (for_ : UUID) (val : string).

(** The line "[%d] <<< %-4s message: %v %s". *)
Record LogLine : Type := {
  logger : Z;
  mtype : MsgType;
  muuid : UUID;
  detail : Detail;
}.

(** The first [limit] bytes of [args], or all of them. *)
Definition clip (limit : Z) (args : string) : outcome string :=
  let n := slen args in
  let n := if n >? limit then limit else n in
  sliceTo args n.

(** [connMsgLogger.Handle]. *)
Definition Handle (l : Z) (m : Msg) : outcome LogLine :=
  let s :=
    match m with
    | NackMsg _ _ forType for_ message => Done (ForWith forType for_ message)
    | AckMsg _ _ forType for_ => Done (For forType for_)
    | ResMsg _ _ for_ args =>
        match clip 100 args with
        | Done val => Done (ForWith CallMsg for_ val)
        | Panic => Panic
        end
    | ExpMsg _ _ for_ => Done (For CallMsg for_)
    | EvntMsg _ _ for_ args =>
        match clip 40 args with
        | Done val => Done (ForWith PubMsg for_ val)
        | Panic => Panic
        end
    | OtherMsg _ _ => Done NoDetail
    end in
  match s with
  | Done s => Done {| logger := l; mtype := msgType m; muuid := msgUUID m; detail := s |}
  | Panic => Panic
  end.

Lemma substring_prefix (s : string) (n : nat) :
  (n <= String.length s)%nat ->
  String.length (substring 0 n s) = n /\
  exists tail, s = (substring 0 n s ++ tail)%string.
Proof.
  revert n. induction s as [|a s IH]; intros n Hn.
  - simpl in Hn. assert (n = 0%nat) as -> by lia. split; [done | by exists EmptyString].
  - destruct n as [|n]; [split; [done | by exists (String a s)]|].
    simpl in Hn. destruct (IH n ltac:(lia)) as (Hlen & tail & Htail).
    simpl. split; [by rewrite Hlen|]. exists tail.
    change (String a s = String a (substring 0 n s ++ tail)%string). by rewrite <- Htail.
Qed.

Lemma clip_prefix (limit : Z) (args : string) :
  0 <= limit ->
  exists val, clip limit args = Done val /\
    slen val = Z.min (slen args) limit /\
    exists tail, args = (val ++ tail)%string.
Proof.
  intros Hlimit. unfold clip, sliceTo, slen.
  set (n := Z.of_nat (String.length args)).
  assert (Hn : 0 <= n) by (unfold n; lia).
  destruct (Z.gtb_spec n limit) as [Hgt|Hle].
  - replace ((0 <=? limit) && (limit <=? n)) with true
      by (symmetry; apply andb_true_iff; lia).
    destruct (substring_prefix args (Z.to_nat limit)) as (Hlen & tail & Htail);
      [unfold n in *; lia|].
    eexists. split; [done|]. split; [rewrite Hlen; lia | by exists tail].
  - replace ((0 <=? n) && (n <=? n)) with true
      by (symmetry; apply andb_true_iff; lia).
    destruct (substring_prefix args (Z.to_nat n)) as (Hlen & tail & Htail);
      [unfold n in *; lia|].
    eexists. split; [done|]. split; [rewrite Hlen; lia | by exists tail].
Qed.

(** X13: [Handle] logs every message under the ID of its connection and
    never slices past the end of the arguments: of a RES it prints the
    first 100 bytes of the arguments, of an EVNT the first 40, and all of
    them when there are no more. *)
Theorem Handle_clips (l : Z) :
  (forall t u for_ args,
     exists val,
       Handle l (ResMsg t u for_ args)
       = Done {| logger := l; mtype := t; muuid := u; detail := ForWith CallMsg for_ val |}
       /\ slen val = Z.min (slen args) 100
       /\ exists tail, args = (val ++ tail)%string)
  /\ (forall t u for_ args,
       exists val,
         Handle l (EvntMsg t u for_ args)
         = Done {| logger := l; mtype := t; muuid := u; detail := ForWith PubMsg for_ val |}
         /\ slen val = Z.min (slen args) 40
         /\ exists tail, args = (val ++ tail)%string)
  /\ (forall m, exists line,
       Handle l m = Done line /\ logger line = l /\
       mtype line = msgType m /\ muuid line = msgUUID m).
Proof.
  split; [|split].
  - intros t u for_ args. destruct (clip_prefix 100 args) as (val & Hc & Hlen & Htail); [lia|].
    exists val. unfold Handle. rewrite Hc. done.
  - intros t u for_ args. destruct (clip_prefix 40 args) as (val & Hc & Hlen & Htail); [lia|].
    exists val. unfold Handle. rewrite Hc. done.
  - intros m. destruct m as [t u ft f msg|t u ft f|t u f args|t u f|t u f args|t u];
      unfold Handle; try (eexists; by repeat split).
    + destruct (clip_prefix 100 args) as (val & -> & _); [lia|]. eexists; by repeat split.
    + destruct (clip_prefix 40 args) as (val & -> & _); [lia|]. eexists; by repeat split.
Qed.

End Logger.

(** *** The commands on concrete command lines, once more

    The table has connection 7 at ID 1, a disconnected slot at ID 2 and
    connection 9 at ID 3; the flags are the address and the subprotocol
    below. *)

Definition sampleTable : list (option nat) := [Some 7%nat; None; Some 9%nat].
Definition sampleAddr : string := "ws://localhost:9000/ws".
Definition sampleProto : string := "juggler.0".

Lemma unknown_id_only_prints_witness :
  namesConn (Client := nat) Send = true
  /\ value (getConn Atoi64 sampleTable "x") = Done (None, 0)
  /\ Run Atoi64 ParseSeconds sampleAddr sampleProto Send ("x" :: ["hi"]) sampleTable
     = Done (sampleTable,
             match Atoi64 "x" with None => [Print (ArgumentError "x")] | Some _ => [] end
             ++ [Print (InvalidConnectionID "x")]).
Proof.
  split; [reflexivity|]. split; [reflexivity|].
  exact (unknown_id_only_prints Atoi64 ParseSeconds sampleAddr sampleProto
           Send "x" ["hi"] sampleTable 0 eq_refl eq_refl).
Defined.

Lemma enough_args_no_panic_witness :
  MinArgs (Client := nat) Call <= len ["3"; "echo"]
  /\ exists connections' w,
      Run Atoi64 ParseSeconds sampleAddr sampleProto Call ["3"; "echo"] sampleTable
      = Done (connections', w).
Proof.
  assert (Hmin : MinArgs (Client := nat) Call <= len ["3"; "echo"])
    by (vm_compute; discriminate).
  split; [exact Hmin|].
  exact (enough_args_no_panic Atoi64 ParseSeconds sampleAddr sampleProto
           Call ["3"; "echo"] sampleTable Hmin).
Defined.

Lemma connect_assigns_next_id_witness :
  Atoi64 "4" = Some (len sampleTable + 1)
  /\ connectCmd sampleAddr sampleProto (Some 8%nat) ["ws://other/ws"] sampleTable
     = Done (sampleTable ++ [Some 8%nat],
             [Dial "ws://other/ws" [sampleProto] 4; Print (Connected 4 "ws://other/ws")])
  /\ getConn Atoi64 (sampleTable ++ [Some 8%nat]) "4" = Done ((Some 8%nat, 3), []).
Proof.
  split; [reflexivity|].
  destruct (connect_assigns_next_id Atoi64 sampleAddr sampleProto
              ["ws://other/ws"] sampleTable) as [Hok _].
  exact (Hok 8%nat "4" eq_refl).
Defined.

Lemma disconnect_then_unknown_witness :
  value (getConn Atoi64 sampleTable "3") = Done (Some 9%nat, 2)
  /\ exists connections',
      disconnectCmd Atoi64 ("3" :: []) sampleTable = Done (connections', [ConnClose 9%nat]) /\
      value (getConn Atoi64 connections' "3") = Done (None, 0) /\
      forall rest',
        disconnectCmd Atoi64 ("3" :: rest') connections'
        = Done (connections', [Print (InvalidConnectionID "3")]).
Proof.
  split; [reflexivity|].
  exact (disconnect_then_unknown Atoi64 "3" [] sampleTable 9%nat 2 eq_refl).
Defined.

Lemma call_bad_timeout_witness :
  value (getConn Atoi64 sampleTable "3") = Done (Some 9%nat, 2)
  /\ ParseSeconds "soon" = None
  /\ callCmd Atoi64 ParseSeconds ("3" :: "echo" :: "soon" :: ["hi"]) sampleTable
     = Done (sampleTable, [Print (InvalidTimeout (2 + 1))])
  /\ Atoi64 "3" = Some (2 + 1).
Proof.
  split; [reflexivity|]. split; [reflexivity|].
  exact (call_bad_timeout Atoi64 ParseSeconds "3" "echo" "soon" ["hi"] sampleTable
           9%nat 2 eq_refl eq_refl).
Defined.

Lemma call_without_args_witness :
  value (getConn Atoi64 sampleTable "3") = Done (Some 9%nat, 2)
  /\ callCmd Atoi64 ParseSeconds ["3"; "echo"] sampleTable
     = Done (sampleTable, [CallReq 9%nat "echo" PldNil 0])
  /\ forall a2 d, ParseSeconds a2 = Some d ->
       callCmd Atoi64 ParseSeconds ["3"; "echo"; a2] sampleTable
       = Done (sampleTable, [CallReq 9%nat "echo" PldNil d]).
Proof.
  split; [reflexivity|].
  exact (call_without_args Atoi64 ParseSeconds "3" "echo" sampleTable 9%nat 2 eq_refl).
Defined.

Lemma rand_writes_witness :
  value (getConn Atoi64 sampleTable "3") = Done (Some 9%nat, 2)
  /\ randCmd Atoi64 true ("3" :: "many" :: []) sampleTable
     = Done (sampleTable, [NextWriter 9%nat; Print (InvalidNumber (2 + 1))])
  /\ randCmd Atoi64 false ("3" :: []) sampleTable
     = Done (sampleTable, [NextWriter 9%nat; Print (NoWriter (2 + 1))]).
Proof.
  split; [reflexivity|].
  destruct (rand_writes Atoi64 "3" [] sampleTable 9%nat 2 eq_refl)
    as (_ & _ & Hbad & Hnone & _).
  split; [exact (Hbad "many" eq_refl) | exact Hnone].
Defined.

Example rand_default_count :
  randCmd Atoi64 true ["1"] sampleTable
  = Done (sampleTable, [NextWriter 7%nat; RandBytes 7%nat 20]).
Proof. reflexivity. Qed.

Lemma commands_touch_named_connection_witness :
  namesConn (Client := nat) Pub = true
  /\ Run Atoi64 ParseSeconds sampleAddr sampleProto Pub ("3" :: ["news"; "1"]) sampleTable
     = Done (sampleTable, [PubReq 9%nat "news" "1"])
  /\ PubReq 9%nat "news" "1" ∈ [PubReq 9%nat "news" "1"]
  /\ target (PubReq 9%nat "news" "1") = Some 9%nat
  /\ exists i, Atoi64 "3" = Some i /\ 1 <= i <= len sampleTable /\
               sampleTable !! Z.to_nat (i - 1) = Some (Some 9%nat).
Proof.
  assert (Hin : PubReq 9%nat "news" "1" ∈ [PubReq 9%nat "news" "1"])
    by apply list_elem_of_here.
  split; [reflexivity|]. split; [reflexivity|]. split; [exact Hin|]. split; [reflexivity|].
  exact (commands_touch_named_connection Atoi64 ParseSeconds sampleAddr sampleProto
           Pub "3" ["news"; "1"] sampleTable sampleTable [PubReq 9%nat "news" "1"]
           (PubReq 9%nat "news" "1") 9%nat eq_refl eq_refl Hin eq_refl).
Defined.

Lemma one_request_per_command_witness :
  oneRequest (Client := nat) Close = true
  /\ MinArgs (Client := nat) Close <= len ("3" :: [])
  /\ value (getConn Atoi64 sampleTable "3") = Done (Some 9%nat, 2)
  /\ exists e,
      Run Atoi64 ParseSeconds sampleAddr sampleProto Close ("3" :: []) sampleTable
      = Done (sampleTable, [e]) /\ target e = Some 9%nat.
Proof.
  assert (Hmin : MinArgs (Client := nat) Close <= len ("3"%string :: []))
    by (vm_compute; discriminate).
  split; [reflexivity|]. split; [exact Hmin|]. split; [reflexivity|].
  exact (one_request_per_command Atoi64 ParseSeconds sampleAddr sampleProto
           Close "3" [] sampleTable 9%nat 2 eq_refl Hmin eq_refl).
Defined.

Lemma table_counts_connects_witness :
  Forall (fun ca : Command (Client := nat) * list string => MinArgs ca.1 <= len ca.2)
    [(Connect (Some 8%nat), []); (Disconnect, ["1"]); (Connect None, []);
     (Connect (Some 6%nat), ["ws://other/ws"])]
  /\ length (session Atoi64 ParseSeconds sampleAddr sampleProto
               [(Connect (Some 8%nat), []); (Disconnect, ["1"]); (Connect None, []);
                (Connect (Some 6%nat), ["ws://other/ws"])] sampleTable)
     = (length sampleTable
        + connects [(Connect (Some 8%nat), []); (Disconnect, ["1"]); (Connect None, []);
                    (Connect (Some 6%nat), ["ws://other/ws"])])%nat.
Proof.
  assert (Hall : Forall (fun ca : Command (Client := nat) * list string =>
                           MinArgs ca.1 <= len ca.2)
                   [(Connect (Some 8%nat), []); (Disconnect, ["1"%string]); (Connect None, []);
                    (Connect (Some 6%nat), ["ws://other/ws"%string])])
    by (repeat constructor; vm_compute; discriminate).
  split; [exact Hall|].
  exact (table_counts_connects Atoi64 ParseSeconds sampleAddr sampleProto _ sampleTable Hall).
Defined.

Lemma disconnected_id_stays_unknown_witness :
  sampleTable !! 1%nat = Some None
  /\ namesConn (Client := nat) Call = true
  /\ Atoi64 "2" = Some (Z.of_nat 1 + 1)
  /\ Run Atoi64 ParseSeconds sampleAddr sampleProto Call ("2" :: ["echo"])
       (session Atoi64 ParseSeconds sampleAddr sampleProto
          [(Connect (Some 8%nat), []); (Disconnect, ["3"])] sampleTable)
     = Done (session Atoi64 ParseSeconds sampleAddr sampleProto
               [(Connect (Some 8%nat), []); (Disconnect, ["3"])] sampleTable,
             [Print (InvalidConnectionID "2")]).
Proof.
  split; [reflexivity|]. split; [reflexivity|]. split; [reflexivity|].
  exact (disconnected_id_stays_unknown Atoi64 ParseSeconds sampleAddr sampleProto
           [(Connect (Some 8%nat), []); (Disconnect, ["3"%string])] sampleTable 1%nat
           Call "2" ["echo"] eq_refl eq_refl eq_refl).
Defined.

Example callPayload_raw_inside :
  callPayload ["1"; "echo"; "2s"; "`[1,"; "2]`"] = PldRaw "[1, 2]".
Proof. reflexivity. Qed.

Example Handle_long_result :
  Handle "call" "pub" 3 (ResMsg "res" 11%nat 5%nat
    "0123456789012345678901234567890123456789012345678901234567890123456789012345678901234567890123456789tail")
  = Done {| logger := 3; mtype := "res"; muuid := 11%nat;
            detail := ForWith "call" 5%nat
              "0123456789012345678901234567890123456789012345678901234567890123456789012345678901234567890123456789" |}.
Proof. reflexivity. Qed.

Example Handle_short_event :
  Handle "call" "pub" 3 (EvntMsg "evnt" 11%nat 5%nat "hi")
  = Done {| logger := 3; mtype := "evnt"; muuid := 11%nat;
            detail := ForWith "pub" 5%nat "hi" |}.
Proof. reflexivity. Qed.

End Cli.

(** ** The broker contract ([broker] package) *)

Module Broker.

(** *** Durations and the package variable *)

(** [time.Duration] counts nanoseconds. *)
Definition Millisecond : Z := 1000000.
Definition Second : Z := 1000 * Millisecond.
Definition Minute : Z := 60 * Second.

(** The package-level variables of [broker]: there is one,
    [var DefaultCallTimeout = time.Minute].  It is a [var], so any code of
    the process may assign it; the state of the package is threaded
    through whatever reads it. *)
Record Globals : Type := { DefaultCallTimeout : Z }.

(** The state of the package when the program starts. *)
Definition init : Globals := {| DefaultCallTimeout := Minute |}.

(** The assignment [broker.DefaultCallTimeout = d]. *)
Definition set_DefaultCallTimeout (d : Z) (g : Globals) : Globals :=
  {| DefaultCallTimeout := d |}.

(** Modelled from the spec: the timeout the adapter applies to a call (the
    adapter, package [redisbroker], is not among the sources).  "The broker
    applies the per-call timeout (falling back to a configured default)";
    "Timeout = 0 -> adapter substitutes the configured default".  The
    variable's own comment says the same: "this value is only used if no
    timeout was specified on the message". *)
Definition callTimeout (g : Globals) (timeout : Z) : Z :=
  if timeout =? 0 then DefaultCallTimeout g else timeout.

(** *** Payloads (package [message], as the contract uses them) *)

Abbreviation UUID := nat (only parsing).

Record CallPayload : Type := {
  cpMsgUUID : UUID;
  cpConnUUID : UUID;
  cpURI : string;
  cpArgs : string;
}.

Record ResPayload : Type := {
  rpMsgUUID : UUID;
  rpFor : UUID;
  rpConnUUID : UUID;
  rpArgs : string;
}.

Record EvntPayload : Type := {
  epMsgUUID : UUID;
  epChannel : string;
  epPattern : string;
  epArgs : string;
}.

(** *** Streaming connections

    [ResultsConn], [CallsConn] and [PubSubConn] are interfaces; what they
    share is the stream behind [Results()], [Calls()] and [Events()]. *)

(** A Go channel is known by its identity; an [error] by its message. *)
Abbreviation Chan := nat (only parsing).
Abbreviation Error := string (only parsing).

Inductive Pump : Type := NotStarted | Running | Stopped.

(** Modelled from the spec: the state behind a streaming connection (the
    implementations, in [redisbroker], are not among the sources).  "A
    single lazy reader: the first call starts a background pump; later
    calls return the same channel"; "the stream is closed by the pump on
    first error or on Close(); after close, Err() returns the root cause
    (or nil for a clean close)". *)
Record Stream (Item : Type) : Type := {
  ch : option Chan;        (* the channel made by the first call, if any *)
  chClosed : bool;         (* the channel was closed *)
  sent : list Item;        (* what the pump pushed on the channel *)
  pump : Pump;             (* the background goroutine *)
  pumps : nat;             (* how many pumps were ever started *)
  err : option Error;      (* what the error accessor returns *)
  closed : bool;           (* Close() was called *)
}.
Arguments ch {Item} _.
Arguments chClosed {Item} _.
Arguments sent {Item} _.
Arguments pump {Item} _.
Arguments pumps {Item} _.
Arguments err {Item} _.
Arguments closed {Item} _.

Definition newStream {Item : Type} : Stream Item :=
  {| ch := None; chClosed := false; sent := []; pump := NotStarted;
     pumps := 0; err := None; closed := false |}.

(** Modelled from the spec: the accessor behind [Results()], [Calls()]
    and [Events()] (implemented in [redisbroker]).  "Only the first call
    starts the goroutine ...  Subsequent calls return the same channel."
    [fresh] is the channel [make] returns should the accessor call it.  On
    a connection already closed the pump it starts finds nothing to read
    and closes the channel without an error. *)
Definition accessor {Item : Type} (fresh : Chan) (s : Stream Item) : Stream Item * Chan :=
  match ch s with
  | Some c => (s, c)
  | None =>
      ({| ch := Some fresh; chClosed := closed s; sent := sent s;
          pump := if closed s then Stopped else Running;
          pumps := S (pumps s); err := err s; closed := closed s |}, fresh)
  end.

(** Modelled from the spec: the pump (a goroutine of [redisbroker])
    receives an item from the backend and pushes it on the channel. *)
Definition pumpItem {Item : Type} (x : Item) (s : Stream Item) : Stream Item :=
  match pump s with
  | Running =>
      {| ch := ch s; chClosed := chClosed s; sent := sent s ++ [x];
         pump := pump s; pumps := pumps s; err := err s; closed := closed s |}
  | _ => s
  end.

(** Modelled from the spec: the pump (a goroutine of [redisbroker]) meets
    an error: "on transient error it reports the error, closes the stream,
    and terminates". *)
Definition pumpFail {Item : Type} (e : Error) (s : Stream Item) : Stream Item :=
  match pump s with
  | Running =>
      {| ch := ch s; chClosed := true; sent := sent s;
         pump := Stopped; pumps := pumps s; err := Some e; closed := closed s |}
  | _ => s
  end.

(** Modelled from the spec: [Close()] (implemented in [redisbroker])
    interrupts the pump, which closes the channel and leaves the error
    nil: "Cancelled - caused by shutdown; pumps exit without error on the
    stream's err field". *)
Definition closeStream {Item : Type} (s : Stream Item) : Stream Item :=
  {| ch := ch s;
     chClosed := match pump s with Running => true | _ => chClosed s end;
     sent := sent s;
     pump := match pump s with Running => Stopped | p => p end;
     pumps := pumps s; err := err s; closed := true |}.

(** The channel exists and is open. *)
Definition isOpen {Item : Type} (s : Stream Item) : bool :=
  match ch s with
  | Some _ => negb (chClosed s)
  | None => false
  end.

(** What happens to a streaming connection, in order: its user calls the
    accessor or [Close()], its pump receives an item or an error. *)
Inductive StreamEvent (Item : Type) : Type :=
| Access (fresh : Chan)
| Receive (x : Item)
| Fail (e : Error)
| CloseConn.
Arguments Access {Item} fresh.
Arguments Receive {Item} x.
Arguments Fail {Item} e.
Arguments CloseConn {Item}.

Definition stepStream {Item : Type} (s : Stream Item) (ev : StreamEvent Item) : Stream Item :=
  match ev with
  | Access fresh => fst (accessor fresh s)
  | Receive x => pumpItem x s
  | Fail e => pumpFail e s
  | CloseConn => closeStream s
  end.

Definition runStream {Item : Type} (evs : list (StreamEvent Item)) (s : Stream Item)
    : Stream Item :=
  foldl stepStream s evs.

(** Modelled from the spec: the state of the three connections (their
    types are in [redisbroker]; the package declares the interfaces).
    Each holds a stream and what is its own: the connection UUID whose
    results it lists, the URIs whose calls it lists, the channels and
    patterns it is subscribed to. *)
Record ResultsConn : Type := {
  rcUUID : UUID;
  rcStream : Stream ResPayload;
}.

Record CallsConn : Type := {
  ccURIs : list string;
  ccStream : Stream CallPayload;
}.

Record PubSubConn : Type := {
  psChannels : gset string;
  psPatterns : gset string;
  psStream : Stream EvntPayload;
}.

(** What the three interfaces have in common. *)
Class StreamingConn (C Item : Type) : Type := {
  stream : C -> Stream Item;
  withStream : Stream Item -> C -> C;
  stream_withStream : forall s c, stream (withStream s c) = s;
  withStream_stream : forall c, withStream (stream c) c = c;
}.

#[global] Instance ResultsConn_streaming : StreamingConn ResultsConn ResPayload := {|
  stream := rcStream;
  withStream s c := {| rcUUID := rcUUID c; rcStream := s |};
  stream_withStream s c := eq_refl;
  withStream_stream c := match c with Build_ResultsConn _ _ => eq_refl end;
|}.

#[global] Instance CallsConn_streaming : StreamingConn CallsConn CallPayload := {|
  stream := ccStream;
  withStream s c := {| ccURIs := ccURIs c; ccStream := s |};
  stream_withStream s c := eq_refl;
  withStream_stream c := match c with Build_CallsConn _ _ => eq_refl end;
|}.

#[global] Instance PubSubConn_streaming : StreamingConn PubSubConn EvntPayload := {|
  stream := psStream;
  withStream s c :=
    {| psChannels := psChannels c; psPatterns := psPatterns c; psStream := s |};
  stream_withStream s c := eq_refl;
  withStream_stream c := match c with Build_PubSubConn _ _ _ => eq_refl end;
|}.

Definition connAccessor {C Item : Type} `{StreamingConn C Item} (fresh : Chan) (c : C)
    : C * Chan :=
  let '(s, k) := accessor fresh (stream c) in (withStream s c, k).

Definition connErr {C Item : Type} `{StreamingConn C Item} (c : C) : option Error :=
  err (stream c).

Definition connStep {C Item : Type} `{StreamingConn C Item} (c : C)
    (ev : StreamEvent Item) : C :=
  withStream (stepStream (stream c) ev) c.

Definition connRun {C Item : Type} `{StreamingConn C Item}
    (evs : list (StreamEvent Item)) (c : C) : C :=
  foldl connStep c evs.

(** The methods of the interfaces. *)
Definition Results (fresh : Chan) (c : ResultsConn) : ResultsConn * Chan :=
  connAccessor (Item := ResPayload) fresh c.
Definition ResultsErr (c : ResultsConn) : option Error :=
  connErr (Item := ResPayload) c.
Definition Calls (fresh : Chan) (c : CallsConn) : CallsConn * Chan :=
  connAccessor (Item := CallPayload) fresh c.
Definition CallsErr (c : CallsConn) : option Error :=
  connErr (Item := CallPayload) c.
Definition Events (fresh : Chan) (c : PubSubConn) : PubSubConn * Chan :=
  connAccessor (Item := EvntPayload) fresh c.
Definition EventsErr (c : PubSubConn) : option Error :=
  connErr (Item := EvntPayload) c.

(** [NewResultsConn], [NewCallsConn], [NewPubSubConn]. *)
Definition NewResultsConn (uuid : UUID) : ResultsConn :=
  {| rcUUID := uuid; rcStream := newStream |}.
Definition NewCallsConn (uris : list string) : CallsConn :=
  {| ccURIs := uris; ccStream := newStream |}.
Definition NewPubSubConn : PubSubConn :=
  {| psChannels := ∅; psPatterns := ∅; psStream := newStream |}.

(** *** Subscriptions *)

(** Modelled from the spec: [Subscribe] and [Unsubscribe] of the adapter's
    [PubSubConn] (package [redisbroker] is not among the sources).
    "PubSubConn tracks two sets - exact channels and patterns";
    "repeat subscribe on a channel already subscribed is a no-op success;
    unsubscribe from an unknown channel is a no-op success".  [backend] is
    the error the backend answered with, if any; the sets then stay as
    they are and the error is returned. *)
Definition Subscribe (backend : option Error) (channel : string) (pattern : bool)
    (c : PubSubConn) : PubSubConn * option Error :=
  match backend with
  | Some e => (c, Some e)
  | None =>
      (if pattern then
         {| psChannels := psChannels c; psPatterns := {[channel]} ∪ psPatterns c;
            psStream := psStream c |}
       else
         {| psChannels := {[channel]} ∪ psChannels c; psPatterns := psPatterns c;
            psStream := psStream c |},
       None)
  end.

Definition Unsubscribe (backend : option Error) (channel : string) (pattern : bool)
    (c : PubSubConn) : PubSubConn * option Error :=
  match backend with
  | Some e => (c, Some e)
  | None =>
      (if pattern then
         {| psChannels := psChannels c; psPatterns := psPatterns c ∖ {[channel]};
            psStream := psStream c |}
       else
         {| psChannels := psChannels c ∖ {[channel]}; psPatterns := psPatterns c;
            psStream := psStream c |},
       None)
  end.

(** The connection is subscribed to [channel], as a pattern or not. *)
Definition subscribed (channel : string) (pattern : bool) (c : PubSubConn) : Prop :=
  if pattern then channel ∈ psPatterns c else channel ∈ psChannels c.

(** Requests served by a healthy backend, in order. *)
Inductive SubOp : Type := Sub | Unsb.

Definition serve (c : PubSubConn) (req : SubOp * string * bool) : PubSubConn :=
  match req with
  | (Sub, channel, pattern) => fst (Subscribe None channel pattern c)
  | (Unsb, channel, pattern) => fst (Unsubscribe None channel pattern c)
  end.

Definition serveAll (reqs : list (SubOp * string * bool)) (c : PubSubConn) : PubSubConn :=
  foldl serve c reqs.

(** The last request about [(channel, pattern)] in a sequence, if any. *)
Fixpoint lastOn (channel : string) (pattern : bool) (reqs : list (SubOp * string * bool))
    : option SubOp :=
  match reqs with
  | [] => None
  | (op, ch', pat') :: rest =>
      match lastOn channel pattern rest with
      | Some op' => Some op'
      | None =>
          if bool_decide (ch' = channel) && bool_decide (pat' = pattern)
          then Some op else None
      end
  end.

(** *** What the claims say about a stream, for any of the connections *)

(** One stream per connection: before the first call no pump runs; the
    first call starts one and returns a channel; every later call,
    whatever happened in between, returns that channel, changes nothing
    and starts no pump. *)
Definition SharedStream {C Item : Type}
    (acc : Chan -> C -> C * Chan) (run : list (StreamEvent Item) -> C -> C)
    (started : C -> nat) (new : C) : Prop :=
  forall (evs0 : list (StreamEvent Item)) (f1 : Chan)
         (evs : list (StreamEvent Item)) (f2 : Chan),
    Forall (fun ev => forall f, ev <> Access f) evs0 ->
    let c0 := run evs0 new in
    let c1 := fst (acc f1 c0) in
    let c2 := run evs c1 in
    started c0 = 0%nat /\ snd (acc f1 c0) = f1 /\ started c1 = 1%nat /\
    acc f2 c2 = (c2, f1) /\ started c2 = 1%nat.

(** The error accessor: nil while the channel is open; the event that
    closes an open channel is [Close()] or an error of the pump, and from
    then on the accessor returns nil in the first case and that error in
    the second. *)
Definition ErrContract {C Item : Type}
    (errOf : C -> option Error) (run : list (StreamEvent Item) -> C -> C)
    (open : C -> bool) (new : C) : Prop :=
  (forall evs, open (run evs new) = true -> errOf (run evs new) = None) /\
  (forall evs ev rest,
     open (run evs new) = true -> open (run (evs ++ [ev]) new) = false ->
     (ev = CloseConn /\ errOf (run (evs ++ ev :: rest) new) = None) \/
     (exists e, ev = Fail e /\ errOf (run (evs ++ ev :: rest) new) = Some e)).

(** "No process-wide mutable state" for the default: whatever state the
    package is in, the default is the one the program started with. *)
Definition NoProcessWideDefault : Prop :=
  forall g : Globals, DefaultCallTimeout g = DefaultCallTimeout init.

(** "A call with timeout 0 gets the configured default, and that default
    is at least 1 millisecond": in whatever state the package is, the
    timeout applied to such a call is the variable's value, and that value
    is not below one millisecond. *)
Definition DefaultAtLeastMillisecond : Prop :=
  forall g : Globals,
    callTimeout g 0 = DefaultCallTimeout g /\ Millisecond <= DefaultCallTimeout g.

(** *** The default timeout *)



(** C7, as the spec has it, fails: after the assignment
    [broker.DefaultCallTimeout = time.Millisecond] the package holds
    another default than the one it started with. *)
Lemma default_is_process_wide : ~ NoProcessWideDefault.
Proof.
  intros H. specialize (H (set_DefaultCallTimeout Millisecond init)).
  vm_compute in H. discriminate H.
Qed.

(** C7, amended: the default call timeout is the package variable
    [DefaultCallTimeout], one minute when the program starts; an
    assignment replaces it, and a call without a timeout gets the value
    the variable holds when the call is made. *)
Theorem default_is_package_variable :
  DefaultCallTimeout init = Minute
  /\ (forall d g, DefaultCallTimeout (set_DefaultCallTimeout d g) = d)
  /\ (forall d g, callTimeout (set_DefaultCallTimeout d g) 0 = d)
  /\ (forall g timeout, timeout <> 0 -> callTimeout g timeout = timeout).
Proof.
  repeat split.
  intros g timeout Hne. unfold callTimeout.
  destruct (Z.eqb_spec timeout 0) as [->|_]; [done | reflexivity].
Qed.

(** *** Streams *)

(** The states a stream goes through: not started; started with the pump
    running, the channel open and no error; or stopped with the channel
    closed. *)
Definition streamInv {Item : Type} (s : Stream Item) : Prop :=
  match ch s with
  | None =>
      pump s = NotStarted /\ pumps s = 0%nat /\ err s = None /\ chClosed s = false
  | Some _ =>
      pumps s = 1%nat /\
      ((pump s = Running /\ chClosed s = false /\ err s = None) \/
       (pump s = Stopped /\ chClosed s = true))
  end.

Lemma streamInv_new {Item : Type} : streamInv (@newStream Item).
Proof. by repeat split. Qed.

Lemma streamInv_step {Item : Type} (s : Stream Item) (ev : StreamEvent Item) :
  streamInv s -> streamInv (stepStream s ev).
Proof.
  unfold streamInv. destruct s as [k cc st p n e cl], ev as [f|x|e'|]; simpl;
    unfold accessor, pumpItem, pumpFail; simpl.
  - destruct k; simpl; [done|].
    intros (-> & -> & -> & ->). split; [done|].
    destruct cl; [by right | by left].
  - destruct p; simpl; done.
  - destruct p; simpl; [done| |done].
    destruct k; [|by intros (? & _)].
    intros [-> _]. split; [done | by right].
  - destruct k.
    + intros [-> [(-> & -> & ->)|(-> & ->)]]; (split; [done | by right]).
    + by intros (-> & -> & -> & ->).
Qed.

Lemma streamInv_run {Item : Type} (evs : list (StreamEvent Item)) (s : Stream Item) :
  streamInv s -> streamInv (runStream evs s).
Proof.
  revert s. induction evs as [|ev evs IH]; intros s Hs; [done|].
  apply IH. by apply streamInv_step.
Qed.

(** Until the accessor is called there is no channel. *)
Lemma no_access_no_channel {Item : Type} (evs : list (StreamEvent Item)) (s : Stream Item) :
  Forall (fun ev => forall f, ev <> Access f) evs ->
  ch s = None -> pump s = NotStarted -> ch (runStream evs s) = None.
Proof.
  revert s. induction evs as [|ev evs IH]; intros s Hno Hc Hp; [done|].
  inversion Hno as [|? ? Hev Hrest]; subst.
  apply IH; [done| |]; destruct ev as [f|x|e'|]; simpl;
    unfold pumpItem, pumpFail; rewrite ?Hp; try done.
  all: by specialize (Hev f).
Qed.

(** Once there is a channel, it is the channel for good, and the count of
    pumps does not move. *)
Lemma channel_kept {Item : Type} (evs : list (StreamEvent Item)) (s : Stream Item) (k : Chan) :
  ch s = Some k ->
  ch (runStream evs s) = Some k /\ pumps (runStream evs s) = pumps s.
Proof.
  revert s. induction evs as [|ev evs IH]; intros s Hk; [done|].
  assert (Hstep : ch (stepStream s ev) = Some k /\ pumps (stepStream s ev) = pumps s).
  { destruct ev as [f|x|e'|]; simpl; unfold accessor, pumpItem, pumpFail.
    - by rewrite Hk.
    - by destruct (pump s).
    - by destruct (pump s).
    - done. }
  destruct Hstep as [Hk' Hn]. destruct (IH _ Hk') as [? Hn'].
  simpl. split; [done | congruence].
Qed.

Lemma accessor_started {Item : Type} (s : Stream Item) (k f : Chan) :
  ch s = Some k -> accessor f s = (s, k).
Proof. intros H. unfold accessor. by rewrite H. Qed.

Lemma stream_shared {Item : Type} :
  SharedStream (@accessor Item) runStream pumps newStream.
Proof.
  intros evs0 f1 evs f2 Hno c0 c1 c2.
  assert (Hc0 : ch c0 = None) by (by apply no_access_no_channel).
  pose proof (streamInv_run evs0 _ (@streamInv_new Item)) as Hinv.
  fold c0 in Hinv. unfold streamInv in Hinv. rewrite Hc0 in Hinv.
  destruct Hinv as (_ & Hn0 & _).
  assert (Hacc : accessor f1 c0 = (c1, f1)).
  { unfold c1, accessor. by rewrite Hc0. }
  assert (Hc1 : ch c1 = Some f1 /\ pumps c1 = 1%nat).
  { unfold c1, accessor. rewrite Hc0. simpl. by rewrite Hn0. }
  destruct Hc1 as [Hk1 Hn1].
  destruct (channel_kept evs c1 f1 Hk1) as [Hk2 Hn2]. fold c2 in Hk2, Hn2.
  repeat split; try done.
  - by rewrite Hacc.
  - by apply accessor_started.
  - congruence.
Qed.

(** A connection runs as its stream does. *)
Lemma stream_connRun {C Item : Type} `{StreamingConn C Item}
    (evs : list (StreamEvent Item)) (c : C) :
  stream (connRun evs c) = runStream evs (stream c).
Proof.
  revert c. induction evs as [|ev evs IH]; intros c; [done|].
  simpl. rewrite IH. unfold connStep. by rewrite stream_withStream.
Qed.

Lemma conn_shared {C Item : Type} `{StreamingConn C Item} (new : C) :
  stream new = newStream ->
  SharedStream (connAccessor (Item := Item)) connRun (fun c => pumps (stream c)) new.
Proof.
  intros Hnew evs0 f1 evs f2 Hno c0 c1 c2.
  destruct (stream_shared evs0 f1 evs f2 Hno) as (H0 & H1 & H2 & H3 & H4).
  assert (Hs0 : stream c0 = runStream evs0 newStream)
    by (unfold c0; by rewrite stream_connRun, Hnew).
  assert (Hs1 : stream c1 = fst (accessor f1 (runStream evs0 newStream))).
  { unfold c1, connAccessor. rewrite Hs0.
    destruct (accessor f1 (runStream evs0 newStream)); simpl.
    by rewrite stream_withStream. }
  assert (Hs2 : stream c2 = runStream evs (fst (accessor f1 (runStream evs0 newStream))))
    by (unfold c2; by rewrite stream_connRun, Hs1).
  rewrite Hs0, Hs1, Hs2. repeat split; try done.
  - unfold connAccessor. rewrite Hs0.
    destruct (accessor f1 (runStream evs0 newStream)); done.
  - unfold connAccessor. rewrite Hs2, H3. simpl.
    by rewrite <- Hs2, withStream_stream.
Qed.

(** C3: for each of the three connections, only the first call of
    [Results()], [Calls()] or [Events()] starts a pump, and every later
    call returns the channel of the first and changes nothing. *)
Theorem accessors_share_one_stream :
  (forall uuid,
     SharedStream Results connRun (fun c => pumps (rcStream c)) (NewResultsConn uuid))
  /\ (forall uris,
       SharedStream Calls connRun (fun c => pumps (ccStream c)) (NewCallsConn uris))
  /\ SharedStream Events connRun (fun c => pumps (psStream c)) NewPubSubConn.
Proof.
  split; [|split].
  - intros uuid. exact (conn_shared (NewResultsConn uuid) eq_refl).
  - intros uris. exact (conn_shared (NewCallsConn uris) eq_refl).
  - exact (conn_shared NewPubSubConn eq_refl).
Qed.

(** A stopped pump never writes the error again. *)
Lemma stopped_err_kept {Item : Type} (rest : list (StreamEvent Item)) (s : Stream Item)
    (k : Chan) :
  ch s = Some k -> pump s = Stopped -> err (runStream rest s) = err s.
Proof.
  revert s. induction rest as [|ev rest IH]; intros s Hk Hp; [done|].
  simpl.
  assert (Hstep : ch (stepStream s ev) = Some k /\ pump (stepStream s ev) = Stopped /\
                  err (stepStream s ev) = err s).
  { destruct ev as [f|x|e'|]; simpl; unfold accessor, pumpItem, pumpFail;
      rewrite ?Hk, ?Hp; done. }
  destruct Hstep as (Hk' & Hp' & He'). rewrite (IH _ Hk' Hp'). done.
Qed.

Lemma isOpen_inv {Item : Type} (s : Stream Item) :
  streamInv s -> isOpen s = true ->
  exists k, ch s = Some k /\ pump s = Running /\ chClosed s = false /\ err s = None.
Proof.
  unfold streamInv, isOpen. destruct (ch s) as [k|]; [|done].
  intros [_ [(? & ? & ?)|(_ & ->)]] Ho; [by exists k | done].
Qed.

Lemma stream_err_contract {Item : Type} :
  ErrContract (@err Item) runStream isOpen newStream.
Proof.
  split.
  - intros evs Ho.
    destruct (isOpen_inv _ (streamInv_run evs _ streamInv_new) Ho) as (k & _ & _ & _ & He).
    done.
  - intros evs ev rest Ho Hc.
    destruct (isOpen_inv _ (streamInv_run evs _ streamInv_new) Ho)
      as (k & Hk & Hp & Hcl & He).
    unfold runStream in *. rewrite foldl_app in Hc |- *. simpl in Hc |- *.
    set (s := foldl stepStream newStream evs) in *.
    destruct ev as [f|x|e'|]; simpl in Hc |- *.
    + unfold accessor in Hc. rewrite Hk in Hc. simpl in Hc. congruence.
    + unfold pumpItem in Hc. rewrite Hp in Hc. unfold isOpen in Hc, Ho. simpl in Hc.
      congruence.
    + right. exists e'. split; [done|].
      fold (runStream rest (pumpFail e' s)).
      rewrite (stopped_err_kept rest (pumpFail e' s) k);
        unfold pumpFail; rewrite Hp; done.
    + left. split; [done|].
      fold (runStream rest (closeStream s)).
      rewrite (stopped_err_kept rest (closeStream s) k);
        unfold closeStream; rewrite ?Hp; done.
Qed.

Lemma conn_err_contract {C Item : Type} `{StreamingConn C Item} (new : C) :
  stream new = newStream ->
  ErrContract (connErr (Item := Item)) connRun (fun c => isOpen (stream c)) new.
Proof.
  intros Hnew. destruct (@stream_err_contract Item) as [H1 H2]. split.
  - intros evs. unfold connErr. rewrite stream_connRun, Hnew. apply H1.
  - intros evs ev rest. unfold connErr. rewrite !stream_connRun, Hnew. apply H2.
Qed.

(** C4: for each of the three connections, [ResultsErr()], [CallsErr()]
    or [EventsErr()] is nil while the channel is open; an open channel is
    closed by [Close()] or by an error of the pump and by nothing else,
    and once closed the accessor returns nil after [Close()] and the
    pump's error after an error, whatever happens next. *)
Theorem err_after_close :
  (forall uuid,
     ErrContract ResultsErr connRun (fun c => isOpen (rcStream c)) (NewResultsConn uuid))
  /\ (forall uris,
       ErrContract CallsErr connRun (fun c => isOpen (ccStream c)) (NewCallsConn uris))
  /\ ErrContract EventsErr connRun (fun c => isOpen (psStream c)) NewPubSubConn.
Proof.
  split; [|split].
  - intros uuid. exact (conn_err_contract (NewResultsConn uuid) eq_refl).
  - intros uris. exact (conn_err_contract (NewCallsConn uris) eq_refl).
  - exact (conn_err_contract NewPubSubConn eq_refl).
Qed.

(** *** Subscriptions *)

Lemma Subscribe_again (channel : string) (pattern : bool) (c : PubSubConn) :
  subscribed channel pattern c -> Subscribe None channel pattern c = (c, None).
Proof.
  unfold subscribed, Subscribe. destruct c as [chs pats st], pattern; simpl; intros Hin.
  - replace ({[channel]} ∪ pats) with pats by set_solver. done.
  - replace ({[channel]} ∪ chs) with chs by set_solver. done.
Qed.

Lemma Unsubscribe_unknown (channel : string) (pattern : bool) (c : PubSubConn) :
  ~ subscribed channel pattern c -> Unsubscribe None channel pattern c = (c, None).
Proof.
  unfold subscribed, Unsubscribe. destruct c as [chs pats st], pattern; simpl; intros Hin.
  - replace (pats ∖ {[channel]}) with pats by set_solver. done.
  - replace (chs ∖ {[channel]}) with chs by set_solver. done.
Qed.

(** A request makes the one before it on the same channel irrelevant. *)
Lemma serve_absorbs (op op' : SubOp) (channel : string) (pattern : bool) (c : PubSubConn) :
  serve (serve c (op', channel, pattern)) (op, channel, pattern)
  = serve c (op, channel, pattern).
Proof.
  destruct c as [chs pats st], op, op', pattern; simpl; f_equal;
    apply set_eq; intros x; destruct (decide (x = channel)); set_solver.
Qed.

Lemma serveAll_same_channel (channel : string) (pattern : bool)
    (ops : list SubOp) (op : SubOp) (c : PubSubConn) :
  serveAll ((fun o => (o, channel, pattern)) <$> (ops ++ [op])) c
  = serve c (op, channel, pattern).
Proof.
  revert op. induction ops as [|op' ops IH] using rev_ind; intros op; [done|].
  unfold serveAll in *. rewrite fmap_app, foldl_app. simpl.
  rewrite IH. apply serve_absorbs.
Qed.

Lemma serve_subscribed (c : PubSubConn) (op : SubOp) (ch' channel : string)
    (pat' pattern : bool) :
  subscribed channel pattern (serve c (op, ch', pat')) <->
  if bool_decide (ch' = channel) && bool_decide (pat' = pattern)
  then op = Sub else subscribed channel pattern c.
Proof.
  unfold subscribed.
  destruct c as [chs pats st], op, pat', pattern; simpl;
    destruct (bool_decide_reflect (ch' = channel)) as [->|Hne]; simpl;
    split; intros; try done; set_solver.
Qed.

Lemma serveAll_subscribed (reqs : list (SubOp * string * bool)) (channel : string)
    (pattern : bool) (c : PubSubConn) :
  subscribed channel pattern (serveAll reqs c) <->
  match lastOn channel pattern reqs with
  | Some op => op = Sub
  | None => subscribed channel pattern c
  end.
Proof.
  revert c. induction reqs as [|[[op ch'] pat'] reqs IH]; intros c; [done|].
  unfold serveAll in *. cbn [foldl lastOn]. rewrite IH.
  destruct (lastOn channel pattern reqs) as [op'|]; [done|].
  rewrite serve_subscribed.
  by destruct (bool_decide (ch' = channel) && bool_decide (pat' = pattern)).
Qed.

(** C5: subscribing to what the connection is subscribed to, and
    unsubscribing from what it is not, succeed and change nothing; after
    any sequence of requests on one [(channel, pattern)] the connection is
    as the last request alone would have left it; and among requests on
    any channels, whether the connection is subscribed to
    [(channel, pattern)] is decided by the last request that names it. *)
Theorem subscriptions_converge :
  (forall channel pattern c,
     subscribed channel pattern c -> Subscribe None channel pattern c = (c, None))
  /\ (forall channel pattern c,
       ~ subscribed channel pattern c -> Unsubscribe None channel pattern c = (c, None))
  /\ (forall channel pattern ops op c,
       serveAll ((fun o => (o, channel, pattern)) <$> (ops ++ [op])) c
       = serve c (op, channel, pattern))
  /\ (forall reqs channel pattern c,
       subscribed channel pattern (serveAll reqs c) <->
       match lastOn channel pattern reqs with
       | Some op => op = Sub
       | None => subscribed channel pattern c
       end)
  /\ (forall channel pattern c,
       subscribed channel pattern (serve c (Sub, channel, pattern)) /\
       ~ subscribed channel pattern (serve c (Unsb, channel, pattern))).
Proof.
  split; [exact Subscribe_again|].
  split; [exact Unsubscribe_unknown|].
  split; [exact serveAll_same_channel|].
  split; [exact serveAll_subscribed|].
  intros channel pattern c. rewrite !serve_subscribed.
  rewrite !bool_decide_eq_true_2 by done. simpl. done.
Qed.

(** *** The contract on concrete runs *)


(** [default_is_package_variable] on a call with a timeout of its own. *)
Lemma default_is_package_variable_witness :
  Second <> 0 /\ callTimeout init Second = Second.
Proof.
  assert (Hne : Second <> 0) by (vm_compute; discriminate).
  destruct default_is_package_variable as (_ & _ & _ & Hown).
  split; [exact Hne | exact (Hown init Second Hne)].
Defined.

(** [accessors_share_one_stream] on a [PubSubConn] closed and reopened
    around its first [Events()]. *)
Lemma accessors_share_one_stream_witness :
  Forall (fun ev : StreamEvent EvntPayload => forall f, ev <> Access f) [CloseConn]
  /\ Events 6%nat
       (connRun [Fail "boom"; CloseConn]
          (fst (Events 5%nat (connRun [CloseConn] NewPubSubConn))))
     = (connRun [Fail "boom"; CloseConn]
          (fst (Events 5%nat (connRun [CloseConn] NewPubSubConn))), 5%nat).
Proof.
  assert (Hno : Forall (fun ev : StreamEvent EvntPayload => forall f, ev <> Access f)
                  [CloseConn]) by (repeat constructor; discriminate).
  split; [exact Hno|].
  destruct accessors_share_one_stream as (_ & _ & Hev).
  destruct (Hev [CloseConn] 5%nat [Fail "boom"; CloseConn] 6%nat Hno)
    as (_ & _ & _ & Hsame & _).
  exact Hsame.
Defined.

(** [err_after_close] on a [ResultsConn] whose pump fails. *)
Lemma err_after_close_witness :
  isOpen (rcStream (connRun [Access 5%nat] (NewResultsConn 7%nat))) = true
  /\ isOpen (rcStream (connRun ([Access 5%nat] ++ [Fail "boom"]) (NewResultsConn 7%nat)))
     = false
  /\ ResultsErr (connRun ([Access 5%nat] ++ Fail "boom" :: [CloseConn; Fail "late"])
                   (NewResultsConn 7%nat)) = Some "boom"%string.
Proof.
  split; [reflexivity|]. split; [reflexivity|].
  destruct err_after_close as (Hres & _ & _).
  destruct (Hres 7%nat) as [_ Hclose].
  destruct (Hclose [Access 5%nat] (Fail "boom") [CloseConn; Fail "late"] eq_refl eq_refl)
    as [[Hev _]|(e & Hev & Herr)].
  - discriminate Hev.
  - injection Hev as <-. exact Herr.
Defined.

(** [subscriptions_converge] on a connection subscribed to [news]. *)
Lemma subscriptions_converge_witness :
  subscribed "news" false (serve NewPubSubConn (Sub, "news"%string, false))
  /\ Subscribe None "news" false (serve NewPubSubConn (Sub, "news"%string, false))
     = (serve NewPubSubConn (Sub, "news"%string, false), None).
Proof.
  destruct subscriptions_converge as (Hagain & _ & _ & _ & Hlast).
  destruct (Hlast "news"%string false NewPubSubConn) as [Hsub _].
  split; [exact Hsub | exact (Hagain _ _ _ Hsub)].
Defined.

Example stream_first_error_wins :
  let s := runStream (Item := nat)
             [Access 5%nat; Receive 10%nat; Access 6%nat; Fail "boom"; CloseConn; Fail "late"]
             newStream in
  ch s = Some 5%nat /\ pumps s = 1%nat /\ sent s = [10%nat] /\
  isOpen s = false /\ err s = Some "boom"%string.
Proof. by repeat split. Qed.

Example stream_clean_close :
  let s := runStream (Item := nat) [Access 5%nat; CloseConn; Fail "late"; Access 6%nat]
             newStream in
  ch s = Some 5%nat /\ pumps s = 1%nat /\ isOpen s = false /\ err s = None.
Proof. by repeat split. Qed.

Example stream_open_no_error :
  let s := runStream (Item := nat) [Access 5%nat; Receive 10%nat] newStream in
  isOpen s = true /\ err s = None.
Proof. by repeat split. Qed.

Example Results_twice :
  let c1 := fst (Results 5%nat (NewResultsConn 7%nat)) in
  Results 6%nat c1 = (c1, 5%nat).
Proof. reflexivity. Qed.

Example zero_timeout_one_minute : callTimeout init 0 = 60000000000.
Proof. reflexivity. Qed.

Example explicit_timeout_kept : callTimeout init (50 * Millisecond) = 50000000.
Proof. reflexivity. Qed.

Example subscriptions_last_wins :
  subscribed "news" false
    (serveAll [(Sub, "news", false); (Unsb, "news", false); (Sub, "new*", true);
               (Sub, "news", false)]%string NewPubSubConn)
  /\ ~ subscribed "news" true
        (serveAll [(Sub, "news", false); (Sub, "news", true); (Unsb, "news", true)]%string
           NewPubSubConn).
Proof.
  rewrite !serveAll_subscribed. simpl. done.
Qed.

End Broker.

(** ** The broker adapter: call queues and result routing *)

Module Adapter.
Import Broker.

#[global] Instance CallPayload_eq_dec : EqDecision CallPayload.
Proof. solve_decision. Defined.

#[global] Instance ResPayload_eq_dec : EqDecision ResPayload.
Proof. solve_decision. Defined.

(** Modelled from the spec: an entry of the list [calls:<URI>] (the
    adapter, package [redisbroker], is not among the sources).  "Call(cp,
    timeout) appends the encoded payload with an embedded expiration field
    now+timeout." *)
Record QueuedCall : Type := {
  qcPayload : CallPayload;
  qcExpiration : Z;
}.

#[global] Instance QueuedCall_eq_dec : EqDecision QueuedCall.
Proof. solve_decision. Defined.

(** A callee process, known by a number. *)
Abbreviation Callee := nat (only parsing).

(** Modelled from the spec: the backend as the adapter uses it, with the
    clock, and a record of what was submitted, handed to callees, dropped
    and delivered.  "Each URI maps to a list calls:<URI>"; "Result(rp,
    timeout) writes the encoded payload to res:<callerConnUUID>:<forUUID>
    with TTL". *)
Record State : Type := {
  now : Z;
  queues : gmap string (list QueuedCall);
  results : gmap (UUID * UUID) (ResPayload * Z);
  submitted : list (QueuedCall * Z * Z);   (* entry, instant of the call, timeout given *)
  handed : list (Callee * QueuedCall * Z); (* callee, entry, instant of the dequeue *)
  dropped : list QueuedCall;               (* entries dequeued past their expiration *)
  delivered : list (UUID * ResPayload);    (* RES delivered: connection, payload *)
}.

Definition initial : State :=
  {| now := 0; queues := ∅; results := ∅; submitted := []; handed := [];
     dropped := []; delivered := [] |}.

(** The list [calls:<uri>]; a missing key is an empty list. *)
Definition queue (s : State) (uri : string) : list QueuedCall :=
  default [] (queues s !! uri).

(** Modelled from the spec: [Call(cp, timeout)] appends to [calls:<URI>]
    with expiration now + timeout, the timeout falling back to the
    default. *)
Definition Call (g : Globals) (cp : CallPayload) (timeout : Z) (s : State) : State :=
  let qc := {| qcPayload := cp; qcExpiration := now s + callTimeout g timeout |} in
  {| now := now s;
     queues := <[cpURI cp := queue s (cpURI cp) ++ [qc]]> (queues s);
     results := results s;
     submitted := submitted s ++ [(qc, now s, timeout)];
     handed := handed s; dropped := dropped s; delivered := delivered s |}.

(** Modelled from the spec: one turn of the pump of a [CallsConn] on one
    of its URIs.  "On each item, the pump checks expiration >= now;
    expired items are silently dropped (never delivered, never produce a
    result)." *)
Definition Dequeue (callee : Callee) (uri : string) (s : State) : State :=
  match queue s uri with
  | [] => s
  | qc :: rest =>
      let live := now s <=? qcExpiration qc in
      {| now := now s;
         queues := <[uri := rest]> (queues s);
         results := results s;
         submitted := submitted s;
         handed := if live then handed s ++ [(callee, qc, now s)] else handed s;
         dropped := if live then dropped s else dropped s ++ [qc];
         delivered := delivered s |}
  end.

(** The callee holds the call: its stream delivered it. *)
Definition holds (callee : Callee) (qc : QueuedCall) (s : State) : bool :=
  existsb (fun h => bool_decide (h.1.1 = callee) && bool_decide (h.1.2 = qc)) (handed s).

(** Modelled from the spec: a callee completes a call it holds and posts
    the result.  "Call: ... either dequeued-and-completed (produces a
    result) or expires"; [Result(rp, timeout)] writes
    [res:<callerConnUUID>:<forUUID>] with a TTL. *)
Definition Result (g : Globals) (rp : ResPayload) (timeout : Z) (s : State) : State :=
  {| now := now s; queues := queues s;
     results := <[(rpConnUUID rp, rpFor rp) := (rp, now s + callTimeout g timeout)]> (results s);
     submitted := submitted s; handed := handed s; dropped := dropped s;
     delivered := delivered s |}.

Definition Complete (g : Globals) (callee : Callee) (qc : QueuedCall)
    (msg : UUID) (args : string) (timeout : Z) (s : State) : State :=
  if holds callee qc s then
    Result g {| rpMsgUUID := msg; rpFor := cpMsgUUID (qcPayload qc);
                rpConnUUID := cpConnUUID (qcPayload qc); rpArgs := args |} timeout s
  else s.

(** Modelled from the spec: the [ResultsConn] of connection [conn], woken
    for the result of [for_]: "reads and deletes the matching key
    atomically (get-and-del).  If the key is already gone (...), the
    event is skipped."  A key past its TTL is gone. *)
Definition Poll (conn for_ : UUID) (s : State) : State :=
  match results s !! (conn, for_) with
  | None => s
  | Some (rp, ttl) =>
      {| now := now s; queues := queues s;
         results := delete (conn, for_) (results s);
         submitted := submitted s; handed := handed s; dropped := dropped s;
         delivered := if now s <=? ttl then delivered s ++ [(conn, rp)] else delivered s |}
  end.

(** What happens at the broker, in order. *)
Inductive Event : Type :=
| Tick (d : N)
| ECall (cp : CallPayload) (timeout : Z)
| EDequeue (callee : Callee) (uri : string)
| EComplete (callee : Callee) (qc : QueuedCall) (msg : UUID) (args : string) (timeout : Z)
| EPoll (conn for_ : UUID).

Definition step (g : Globals) (s : State) (ev : Event) : State :=
  match ev with
  | Tick d =>
      {| now := now s + Z.of_N d; queues := queues s; results := results s;
         submitted := submitted s; handed := handed s; dropped := dropped s;
         delivered := delivered s |}
  | ECall cp timeout => Call g cp timeout s
  | EDequeue callee uri => Dequeue callee uri s
  | EComplete callee qc msg args timeout => Complete g callee qc msg args timeout s
  | EPoll conn for_ => Poll conn for_ s
  end.

Definition run (g : Globals) (evs : list Event) (s : State) : State :=
  foldl (step g) s evs.

(** How many times a list holds an entry. *)
Definition occurrences (qc : QueuedCall) (l : list QueuedCall) : nat :=
  length (filter (fun q => q = qc) l).

(** A call is in flight, was handed to a callee, or was dropped: the
    entries submitted, handed and dropped, as lists of entries. *)
Definition submittedCalls (s : State) : list QueuedCall := (fun x => x.1.1) <$> submitted s.
Definition handedCalls (s : State) : list QueuedCall := (fun x => x.1.2) <$> handed s.

(** *** Accounting: where every submitted call is *)

Section Invariants.

Variable g : Globals.

Definition bump (q qc : QueuedCall) : nat := if decide (q = qc) then 1%nat else 0%nat.

Lemma occurrences_snoc (qc q : QueuedCall) (l : list QueuedCall) :
  occurrences qc (l ++ [q]) = (occurrences qc l + bump q qc)%nat.
Proof.
  unfold occurrences, bump. rewrite filter_app, length_app. f_equal.
  rewrite filter_cons, filter_nil. by destruct (decide (q = qc)).
Qed.

Lemma occurrences_cons (qc q : QueuedCall) (l : list QueuedCall) :
  occurrences qc (q :: l) = (bump q qc + occurrences qc l)%nat.
Proof.
  unfold occurrences, bump. rewrite filter_cons. by destruct (decide (q = qc)).
Qed.

Lemma bump_other_uri (q qc : QueuedCall) :
  cpURI (qcPayload q) <> cpURI (qcPayload qc) -> bump q qc = 0%nat.
Proof. intros Hne. unfold bump. destruct (decide (q = qc)) as [->|]; done. Qed.

Lemma queue_insert (m : gmap string (list QueuedCall)) (k k' : string) (l : list QueuedCall) :
  default [] (<[k := l]> m !! k') = if decide (k = k') then l else default [] (m !! k').
Proof. rewrite lookup_insert. by destruct (decide (k = k')). Qed.

(** Every entry of [calls:<uri>] is a call to [uri], submitted no later
    than now with the expiration its timeout gives. *)
Definition queuesInv (s : State) : Prop :=
  forall uri qc, qc ∈ queue s uri ->
    cpURI (qcPayload qc) = uri /\
    exists t0 t, (qc, t0, t) ∈ submitted s /\
      qcExpiration qc = t0 + callTimeout g t /\ t0 <= now s.

(** Every call handed to a callee was dequeued between its submission and
    its expiration. *)
Definition handedInv (s : State) : Prop :=
  forall callee qc tau, (callee, qc, tau) ∈ handed s ->
    exists t0 t, (qc, t0, t) ∈ submitted s /\
      qcExpiration qc = t0 + callTimeout g t /\ t0 <= tau <= qcExpiration qc.

(** A result answers a call that some callee holds. *)
Definition answers (s : State) (conn : UUID) (rp : ResPayload) : Prop :=
  conn = rpConnUUID rp /\
  exists callee qc tau, (callee, qc, tau) ∈ handed s /\
    cpMsgUUID (qcPayload qc) = rpFor rp /\ cpConnUUID (qcPayload qc) = rpConnUUID rp.

Definition resultsInv (s : State) : Prop :=
  forall conn for_ rp ttl, results s !! (conn, for_) = Some (rp, ttl) -> answers s conn rp.

Definition deliveredInv (s : State) : Prop :=
  forall conn rp, (conn, rp) ∈ delivered s -> answers s conn rp.

(** Handed, dropped or still queued: each submission is in exactly one
    of the three. *)
Definition accounted (s : State) : Prop :=
  forall qc,
    (occurrences qc (handedCalls s) + occurrences qc (dropped s)
     + occurrences qc (queue s (cpURI (qcPayload qc))))%nat
    = occurrences qc (submittedCalls s).

Record Inv (s : State) : Prop := {
  inv_queues : queuesInv s;
  inv_handed : handedInv s;
  inv_results : resultsInv s;
  inv_delivered : deliveredInv s;
  inv_accounted : accounted s;
}.

Lemma Inv_initial : Inv initial.
Proof.
  split.
  - intros uri qc H. unfold queue, initial in H. simpl in H.
    rewrite lookup_empty in H. simpl in H. by apply not_elem_of_nil in H.
  - intros callee qc tau H. by apply not_elem_of_nil in H.
  - intros conn for_ rp ttl H. simpl in H. by rewrite lookup_empty in H.
  - intros conn rp H. by apply not_elem_of_nil in H.
  - intros qc. unfold queue, initial. simpl. by rewrite lookup_empty.
Qed.

Lemma answers_mono (s s' : State) (conn : UUID) (rp : ResPayload) :
  (forall h, h ∈ handed s -> h ∈ handed s') -> answers s conn rp -> answers s' conn rp.
Proof.
  intros Hsub (Hc & callee & qc & tau & Hin & Hu & Hcu).
  split; [done|]. exists callee, qc, tau. auto.
Qed.

Lemma Inv_Tick (d : N) (s : State) : Inv s -> Inv (step g s (Tick d)).
Proof.
  intros [Hq Hh Hr Hd Ha]. split.
  - intros uri qc H. destruct (Hq uri qc H) as (Hu & t0 & t & Hin & He & Ht).
    split; [done|]. exists t0, t. simpl. repeat split; [done | done | lia].
  - exact Hh.
  - exact Hr.
  - exact Hd.
  - exact Ha.
Qed.

Lemma Inv_Call (cp : CallPayload) (timeout : Z) (s : State) :
  Inv s -> Inv (Call g cp timeout s).
Proof.
  intros [Hq Hh Hr Hd Ha].
  set (qc0 := {| qcPayload := cp; qcExpiration := now s + callTimeout g timeout |}).
  split.
  - intros uri qc. unfold queue, Call. simpl. rewrite queue_insert.
    destruct (decide (cpURI cp = uri)) as [<-|Hne].
    + rewrite elem_of_app, list_elem_of_singleton. intros [H| ->].
      * destruct (Hq _ _ H) as (Hu & t0 & t & Hin & He & Ht).
        split; [done|]. exists t0, t. rewrite elem_of_app. auto.
      * split; [done|]. exists (now s), timeout.
        rewrite elem_of_app, list_elem_of_singleton. repeat split; [by right | lia].
    + intros H. destruct (Hq _ _ H) as (Hu & t0 & t & Hin & He & Ht).
      split; [done|]. exists t0, t. rewrite elem_of_app. auto.
  - intros callee qc tau H. destruct (Hh _ _ _ H) as (t0 & t & Hin & He & Ht).
    exists t0, t. unfold Call. simpl. rewrite elem_of_app. auto.
  - exact Hr.
  - exact Hd.
  - intros qc. specialize (Ha qc). unfold queue, Call, submittedCalls, handedCalls in *.
    simpl. rewrite queue_insert, fmap_app. simpl. rewrite occurrences_snoc.
    fold qc0. destruct (decide (cpURI cp = cpURI (qcPayload qc))) as [Heq|Hne].
    + rewrite occurrences_snoc. rewrite <- Heq in Ha. unfold queue in *. lia.
    + rewrite (bump_other_uri qc0 qc) by done. unfold queue in *. lia.
Qed.

Lemma Inv_Dequeue (callee : Callee) (uri : string) (s : State) :
  Inv s -> Inv (Dequeue callee uri s).
Proof.
  intros HI. unfold Dequeue. destruct (queue s uri) as [|q rest] eqn:Hqu; [done|].
  destruct HI as [Hq Hh Hr Hd Ha].
  assert (Hin : q ∈ queue s uri) by (rewrite Hqu; apply list_elem_of_here).
  destruct (Hq _ _ Hin) as (Huri & t0 & t & Hsub & Hexp & Ht0).
  assert (Hmono : forall h, h ∈ handed s ->
            h ∈ (if now s <=? qcExpiration q
                 then handed s ++ [(callee, q, now s)] else handed s)).
  { intros h Hh'. destruct (now s <=? qcExpiration q); [|done].
    rewrite elem_of_app. by left. }
  split.
  - intros uri' qc. unfold queue. simpl. rewrite queue_insert.
    destruct (decide (uri = uri')) as [<-|Hne].
    + intros H. apply (Hq uri qc). rewrite Hqu. by apply list_elem_of_further.
    + apply Hq.
  - intros callee' qc tau. simpl.
    destruct (Z.leb_spec (now s) (qcExpiration q)) as [Hlive|Hdead];
      [|exact (Hh callee' qc tau)].
    rewrite elem_of_app, list_elem_of_singleton.
    intros [H|[= -> -> ->]]; [exact (Hh _ _ _ H)|].
    exists t0, t. repeat split; [done | done | lia | lia].
  - intros conn for_ rp ttl H. eapply answers_mono; [exact Hmono|]. by eapply Hr.
  - intros conn rp H. eapply answers_mono; [exact Hmono|]. by eapply Hd.
  - intros qc. specialize (Ha qc). unfold queue, submittedCalls, handedCalls in *.
    simpl. rewrite queue_insert.
    assert (Hhd : (occurrences qc ((fun x : Callee * QueuedCall * Z => x.1.2) <$>
                     (if (now s <=? qcExpiration q)%Z
                      then handed s ++ [(callee, q, now s)] else handed s))
                  + occurrences qc (if (now s <=? qcExpiration q)%Z
                                    then dropped s else dropped s ++ [q])
                = occurrences qc ((fun x : Callee * QueuedCall * Z => x.1.2) <$> handed s)
                  + occurrences qc (dropped s) + bump q qc)%nat).
    { destruct (now s <=? qcExpiration q).
      - rewrite fmap_app. simpl. rewrite occurrences_snoc. lia.
      - rewrite occurrences_snoc. lia. }
    destruct (decide (uri = cpURI (qcPayload qc))) as [Heq|Hne].
    + rewrite <- Heq in Ha. unfold queue in Hqu. rewrite Hqu in Ha.
      rewrite occurrences_cons in Ha. lia.
    + rewrite (bump_other_uri q qc) in Hhd by congruence. lia.
Qed.

Lemma holds_handed (callee : Callee) (qc : QueuedCall) (s : State) :
  holds callee qc s = true -> exists tau, (callee, qc, tau) ∈ handed s.
Proof.
  unfold holds. rewrite existsb_exists. intros ([[c q] tau] & Hin & Hb).
  apply andb_true_iff in Hb. destruct Hb as [Hc Hq].
  apply bool_decide_eq_true in Hc, Hq. simpl in Hc, Hq. subst.
  exists tau. by apply list_elem_of_In.
Qed.

Lemma Inv_Complete (callee : Callee) (qc : QueuedCall) (msg : UUID) (args : string)
    (timeout : Z) (s : State) :
  Inv s -> Inv (Complete g callee qc msg args timeout s).
Proof.
  intros HI. unfold Complete. destruct (holds callee qc s) eqn:Hh'; [|done].
  destruct (holds_handed _ _ _ Hh') as [tau Hin].
  destruct HI as [Hq Hh Hr Hd Ha]. split; try done.
  intros conn for_ rp ttl. unfold Result. simpl. rewrite lookup_insert.
  destruct (decide _) as [[= <- <-]|Hne].
  - intros [= <- <-]. split; [done|]. by exists callee, qc, tau.
  - apply Hr.
Qed.

Lemma Inv_Poll (conn for_ : UUID) (s : State) : Inv s -> Inv (Poll conn for_ s).
Proof.
  intros HI. unfold Poll.
  destruct (results s !! (conn, for_)) as [[rp ttl]|] eqn:Hres; [|done].
  destruct HI as [Hq Hh Hr Hd Ha]. split; try done.
  - intros conn' for' rp' ttl'. simpl. rewrite lookup_delete.
    destruct (decide _); [done|]. apply Hr.
  - intros conn' rp'. simpl. destruct (now s <=? ttl); [|apply Hd].
    rewrite elem_of_app, list_elem_of_singleton. intros [H|[= -> ->]]; [by apply Hd|].
    by eapply Hr.
Qed.

Lemma Inv_step (s : State) (ev : Event) : Inv s -> Inv (step g s ev).
Proof.
  destruct ev; simpl.
  - apply Inv_Tick.
  - apply Inv_Call.
  - apply Inv_Dequeue.
  - apply Inv_Complete.
  - apply Inv_Poll.
Qed.

Lemma Inv_run (evs : list Event) (s : State) : Inv s -> Inv (run g evs s).
Proof.
  revert s. induction evs as [|ev evs IH]; intros s HI; [done|].
  apply IH. by apply Inv_step.
Qed.

End Invariants.

(** *** Unique message UUIDs *)

Lemma occurrences_absent (q : QueuedCall) (l : list QueuedCall) :
  q ∉ l -> occurrences q l = 0%nat.
Proof.
  induction l as [|x l IH]; [done|].
  rewrite not_elem_of_cons, occurrences_cons. intros [Hne Hl].
  unfold bump. rewrite decide_False by done. by rewrite IH.
Qed.

Lemma occurrences_pos (q : QueuedCall) (l : list QueuedCall) :
  q ∈ l <-> (1 <= occurrences q l)%nat.
Proof.
  split.
  - induction l as [|x l IH]; [by intros ?%not_elem_of_nil|].
    rewrite elem_of_cons, occurrences_cons. unfold bump.
    intros [->|Hin]; [rewrite decide_True by done; lia|].
    specialize (IH Hin). lia.
  - intros H. destruct (decide (q ∈ l)) as [|Hno]; [done|].
    rewrite (occurrences_absent _ _ Hno) in H. lia.
Qed.

Lemma occurrences_NoDup (q : QueuedCall) (l : list QueuedCall) :
  NoDup l -> (occurrences q l <= 1)%nat.
Proof.
  induction 1 as [|x l Hx _ IH]; [unfold occurrences; simpl; lia|].
  rewrite occurrences_cons. unfold bump. destruct (decide (x = q)) as [->|]; [|lia].
  rewrite (occurrences_absent _ _ Hx). lia.
Qed.

Lemma occurrences_twice (q : QueuedCall) (l : list QueuedCall) (i j : nat) :
  i <> j -> l !! i = Some q -> l !! j = Some q -> (2 <= occurrences q l)%nat.
Proof.
  revert i j. induction l as [|x l IH]; intros i j Hne Hi Hj; [done|].
  rewrite occurrences_cons. unfold bump.
  destruct i as [|i], j as [|j]; simpl in Hi, Hj; [done| | |].
  - injection Hi as ->. rewrite decide_True by done.
    apply list_elem_of_lookup_2, occurrences_pos in Hj. lia.
  - injection Hj as ->. rewrite decide_True by done.
    apply list_elem_of_lookup_2, occurrences_pos in Hi. lia.
  - assert (i <> j) by congruence. specialize (IH i j ltac:(done) Hi Hj). lia.
Qed.

Lemma NoDup_fmap_same {A B : Type} (f : A -> B) (l : list A) (x y : A) :
  NoDup (f <$> l) -> x ∈ l -> y ∈ l -> f x = f y -> x = y.
Proof.
  intros Hnd [i Hi]%list_elem_of_lookup [j Hj]%list_elem_of_lookup Hf.
  assert (i = j).
  { eapply NoDup_alt; [exact Hnd| |]; rewrite list_lookup_fmap.
    - by rewrite Hi.
    - rewrite Hj. simpl. by rewrite Hf. }
  subst j. congruence.
Qed.

(** When every submission has its own message UUID, so has every call
    handed to a callee. *)
Lemma handed_unique (s : State) :
  (forall qc, (occurrences qc (handedCalls s) <= occurrences qc (submittedCalls s))%nat) ->
  NoDup ((fun qc => cpMsgUUID (qcPayload qc)) <$> submittedCalls s) ->
  NoDup ((fun qc => cpMsgUUID (qcPayload qc)) <$> handedCalls s).
Proof.
  intros Hle Hnd. apply NoDup_alt. intros i j u Hi Hj.
  apply list_lookup_fmap_Some in Hi as (qi & Hui & Hqi).
  apply list_lookup_fmap_Some in Hj as (qj & Huj & Hqj).
  assert (Hsub : forall q k, handedCalls s !! k = Some q -> q ∈ submittedCalls s).
  { intros q k Hk. apply occurrences_pos.
    apply list_elem_of_lookup_2, occurrences_pos in Hk. specialize (Hle q). lia. }
  assert (qi = qj).
  { eapply (NoDup_fmap_same _ _ _ _ Hnd); [by eapply Hsub | by eapply Hsub | congruence]. }
  subst qj. destruct (decide (i = j)) as [|Hne]; [done|]. exfalso.
  pose proof (occurrences_twice _ _ _ _ Hne Hqi Hqj) as H2.
  pose proof (occurrences_NoDup qi _ (NoDup_fmap_1 _ _ Hnd)) as H1.
  specialize (Hle qi). lia.
Qed.

(** C1: at any point of any run of the broker, every submitted call is in
    exactly one place - handed to a callee, dropped, or still queued - so
    it is handed to callees no more often than it was submitted, and when
    the submitted calls have message UUIDs of their own no two calls
    handed to callees share one; a RES delivered to a connection answers
    a call of that connection which a callee dequeued no later than the
    timeout after its submission; and dequeuing a call past its
    expiration hands it to nobody, posts no result and delivers nothing. *)
Theorem call_once_and_expiry (g : Globals) (evs : list Event) :
  (forall qc,
     (occurrences qc (handedCalls (run g evs initial))
      + occurrences qc (dropped (run g evs initial))
      + occurrences qc (queue (run g evs initial) (cpURI (qcPayload qc))))%nat
     = occurrences qc (submittedCalls (run g evs initial)))
  /\ (forall qc,
       (occurrences qc (handedCalls (run g evs initial))
        <= occurrences qc (submittedCalls (run g evs initial)))%nat)
  /\ (NoDup ((fun qc => cpMsgUUID (qcPayload qc)) <$> submittedCalls (run g evs initial)) ->
      NoDup ((fun qc => cpMsgUUID (qcPayload qc)) <$> handedCalls (run g evs initial)))
  /\ (forall conn rp, (conn, rp) ∈ delivered (run g evs initial) ->
       exists callee qc tau t0 t,
         (callee, qc, tau) ∈ handed (run g evs initial) /\
         (qc, t0, t) ∈ submitted (run g evs initial) /\
         cpMsgUUID (qcPayload qc) = rpFor rp /\
         cpConnUUID (qcPayload qc) = conn /\
         t0 <= tau <= t0 + callTimeout g t)
  /\ (forall callee uri qc rest,
       queue (run g evs initial) uri = qc :: rest ->
       qcExpiration qc < now (run g evs initial) ->
       handed (Dequeue callee uri (run g evs initial)) = handed (run g evs initial) /\
       results (Dequeue callee uri (run g evs initial)) = results (run g evs initial) /\
       delivered (Dequeue callee uri (run g evs initial))
         = delivered (run g evs initial) /\
       dropped (Dequeue callee uri (run g evs initial))
         = dropped (run g evs initial) ++ [qc] /\
       queue (Dequeue callee uri (run g evs initial)) uri = rest).
Proof.
  pose proof (Inv_run g evs initial (Inv_initial g)) as [Hq Hh Hr Hd Ha].
  set (s := run g evs initial) in *.
  assert (Hle : forall qc, (occurrences qc (handedCalls s)
                            <= occurrences qc (submittedCalls s))%nat)
    by (intros qc; specialize (Ha qc); lia).
  split; [exact Ha|]. split; [exact Hle|]. split; [by apply handed_unique|]. split.
  - intros conn rp Hin.
    destruct (Hd _ _ Hin) as (-> & callee & qc & tau & Hhin & Hu & Hc).
    destruct (Hh _ _ _ Hhin) as (t0 & t & Hsub & He & Ht).
    exists callee, qc, tau, t0, t. repeat split; try done; lia.
  - intros callee uri qc rest Hqu Hexp. unfold Dequeue. rewrite Hqu.
    replace (now s <=? qcExpiration qc) with false by (symmetry; apply Z.leb_gt; lia).
    unfold queue. simpl. rewrite queue_insert.
    destruct (decide (uri = uri)); done.
Qed.

(** *** The scenarios of the spec, run *)

Definition echoCall : CallPayload :=
  {| cpMsgUUID := 1; cpConnUUID := 7; cpURI := "echo"; cpArgs := "hi" |}.

(** "Happy call": a callee bound to [echo] answers within the timeout. *)
Example happy_call :
  let qc := {| qcPayload := echoCall; qcExpiration := Second |} in
  let s := run init [ECall echoCall Second; Tick 5; EDequeue 3%nat "echo";
                     EComplete 3%nat qc 9%nat "hi" Second; Tick 5; EPoll 7%nat 1%nat]
             initial in
  handed s = [(3%nat, qc, 5)] /\ dropped s = [] /\
  delivered s = [(7%nat, {| rpMsgUUID := 9; rpFor := 1; rpConnUUID := 7; rpArgs := "hi" |})].
Proof. vm_compute. done. Qed.

(** "Expired call": the callee comes 200 ms after a call with a 50 ms
    timeout. *)
Example expired_call :
  let qc := {| qcPayload := echoCall; qcExpiration := 50 * Millisecond |} in
  let s := run init [ECall echoCall (50 * Millisecond); Tick 200000000;
                     EDequeue 3%nat "echo";
                     EComplete 3%nat qc 9%nat "hi" Second; EPoll 7%nat 1%nat]
             initial in
  handed s = [] /\ dropped s = [qc] /\ delivered s = [] /\ queue s "echo" = [].
Proof. vm_compute. done. Qed.

(** [call_once_and_expiry] on the happy call: the RES delivered answers a
    call dequeued within its timeout. *)
Lemma call_once_and_expiry_witness :
  (7%nat, {| rpMsgUUID := 9; rpFor := 1; rpConnUUID := 7; rpArgs := "hi" |})
    ∈ delivered
        (run init [ECall echoCall Second; Tick 5; EDequeue 3%nat "echo";
                   EComplete 3%nat {| qcPayload := echoCall; qcExpiration := Second |}
                     9%nat "hi" Second;
                   Tick 5; EPoll 7%nat 1%nat] initial)
  /\ exists callee qc tau t0 t,
      (callee, qc, tau)
        ∈ handed
            (run init [ECall echoCall Second; Tick 5; EDequeue 3%nat "echo";
                       EComplete 3%nat {| qcPayload := echoCall; qcExpiration := Second |}
                         9%nat "hi" Second;
                       Tick 5; EPoll 7%nat 1%nat] initial) /\
      (qc, t0, t)
        ∈ submitted
            (run init [ECall echoCall Second; Tick 5; EDequeue 3%nat "echo";
                       EComplete 3%nat {| qcPayload := echoCall; qcExpiration := Second |}
                         9%nat "hi" Second;
                       Tick 5; EPoll 7%nat 1%nat] initial) /\
      cpMsgUUID (qcPayload qc) = 1%nat /\ cpConnUUID (qcPayload qc) = 7%nat /\
      t0 <= tau <= t0 + callTimeout init t.
Proof.
  assert (Hin :
    (7%nat, {| rpMsgUUID := 9; rpFor := 1; rpConnUUID := 7; rpArgs := "hi" |})
      ∈ delivered
          (run init [ECall echoCall Second; Tick 5; EDequeue 3%nat "echo";
                     EComplete 3%nat {| qcPayload := echoCall; qcExpiration := Second |}
                       9%nat "hi" Second;
                     Tick 5; EPoll 7%nat 1%nat] initial)).
  { vm_compute. apply list_elem_of_here. }
  split; [exact Hin|].
  destruct (call_once_and_expiry init
              [ECall echoCall Second; Tick 5; EDequeue 3%nat "echo";
               EComplete 3%nat {| qcPayload := echoCall; qcExpiration := Second |}
                 9%nat "hi" Second;
               Tick 5; EPoll 7%nat 1%nat]) as (_ & _ & _ & Hres & _).
  exact (Hres _ _ Hin).
Defined.

(** Two callees on one URI: the call goes to the first to dequeue. *)
Example two_callees :
  let qc := {| qcPayload := echoCall; qcExpiration := Second |} in
  let s := run init [ECall echoCall Second; EDequeue 3%nat "echo"; EDequeue 4%nat "echo"]
             initial in
  handed s = [(3%nat, qc, 0)].
Proof. vm_compute. done. Qed.

End Adapter.

(** ** The server connection engine *)

Module Server.
Import Broker.

Inductive MsgType : Type := AUTH | CALL | PUB | SUB | UNSB.

(** Modelled from the spec: an inbound frame as the codec decoded it (the
    server and the codec are not among the sources).  "Frames carry a
    header {uuid, type, timestamp} plus a type-specific payload"; a frame
    the codec rejects (MalformedFrame, UnknownType, InvalidPayload) comes
    with the decoder's message. *)
Inductive Inbound : Type :=
| Auth (uuid : UUID) (payload : string)
| CallMsg (uuid : UUID) (uri args : string) (timeout : Z)
| PubMsg (uuid : UUID) (channel args : string)
| SubMsg (uuid : UUID) (channel : string) (pattern : bool)
| UnsbMsg (uuid : UUID) (channel : string) (pattern : bool)
| Bad (e : Error).

Definition uuidOf (m : Inbound) : option UUID :=
  match m with
  | Auth u _ | CallMsg u _ _ _ | PubMsg u _ _ | SubMsg u _ _ | UnsbMsg u _ _ => Some u
  | Bad _ => None
  end.

Definition typeOf (m : Inbound) : option MsgType :=
  match m with
  | Auth _ _ => Some AUTH
  | CallMsg _ _ _ _ => Some CALL
  | PubMsg _ _ _ => Some PUB
  | SubMsg _ _ _ => Some SUB
  | UnsbMsg _ _ _ => Some UNSB
  | Bad _ => None
  end.

(** Modelled from the spec: the outbound frames, "ack {for, for_type}",
    "nack {for, for_type, code, message}", "res {for, conn_uuid, args}",
    "evnt {for, channel, pattern, args}", and the Close control frame.  A
    NACK for a frame that could not be decoded refers to no message. *)
Inductive Frame : Type :=
| Ack (for_ : UUID) (forType : MsgType)
| Nack (for_ : option (UUID * MsgType)) (code : Z) (message : string)
| Res (rp : ResPayload)
| Evnt (for_ : UUID) (ep : EvntPayload)
| CloseFrame (status : string) (text : string).

(** The message an ACK or NACK answers. *)
Definition ackOf (f : Frame) : option UUID :=
  match f with
  | Ack u _ => Some u
  | Nack (Some (u, _)) _ _ => Some u
  | _ => None
  end.

(** The message a RES or EVNT refers to. *)
Definition refOf (f : Frame) : option UUID :=
  match f with
  | Res rp => Some (rpFor rp)
  | Evnt u _ => Some u
  | _ => None
  end.

(** Modelled from the spec: the state of one accepted connection,
    "{ connUUID, writerQueue, subs, pendingCalls, resultsPump (lazy),
    pubsubPump (lazy), closedFlag }".  [writerQueue] is every frame given
    to the writer, in order: "the writer preserves the submission order of
    frames enqueued to it".  [handled] records the frames the demux acted
    on. *)
Record Conn : Type := {
  connUUID : UUID;
  writerQueue : list Frame;
  handled : list Inbound;
  resultsConn : ResultsConn;
  pubsubConn : PubSubConn;
  pendingCalls : gmap UUID Z;
  closedFlag : bool;
  decodeErrors : nat;
}.

Definition newConn (uuid : UUID) : Conn :=
  {| connUUID := uuid; writerQueue := []; handled := [];
     resultsConn := NewResultsConn uuid; pubsubConn := NewPubSubConn;
     pendingCalls := ∅; closedFlag := false; decodeErrors := 0 |}.

(** Enqueue a frame to the writer. *)
Definition send (f : Frame) (c : Conn) : Conn :=
  {| connUUID := connUUID c; writerQueue := writerQueue c ++ [f];
     handled := handled c; resultsConn := resultsConn c; pubsubConn := pubsubConn c;
     pendingCalls := pendingCalls c; closedFlag := closedFlag c;
     decodeErrors := decodeErrors c |}.

(** The demux took a frame in hand; a decoded frame ends a run of decode
    errors, a rejected one extends it. *)
Definition took (m : Inbound) (c : Conn) : Conn :=
  {| connUUID := connUUID c; writerQueue := writerQueue c;
     handled := handled c ++ [m]; resultsConn := resultsConn c;
     pubsubConn := pubsubConn c; pendingCalls := pendingCalls c;
     closedFlag := closedFlag c;
     decodeErrors := match m with Bad _ => S (decodeErrors c) | _ => 0%nat end |}.

(** Modelled from the spec: shutdown "(1) marks closedFlag, (2) closes the
    results pump and pubsub pump, (3) drains and closes the writer, (4)
    closes the transport with a Close control frame". *)
Definition shutdown (status text : string) (c : Conn) : Conn :=
  {| connUUID := connUUID c;
     writerQueue := writerQueue c ++ [CloseFrame status text];
     handled := handled c;
     resultsConn := connStep (Item := ResPayload) (resultsConn c) CloseConn;
     pubsubConn := connStep (Item := EvntPayload) (pubsubConn c) CloseConn;
     pendingCalls := pendingCalls c; closedFlag := true;
     decodeErrors := decodeErrors c |}.

(** Start the results pump, or the pubsub pump, if it is not started. *)
Definition startResults (c : Conn) : Conn :=
  {| connUUID := connUUID c; writerQueue := writerQueue c; handled := handled c;
     resultsConn := fst (Results 0%nat (resultsConn c)); pubsubConn := pubsubConn c;
     pendingCalls := pendingCalls c; closedFlag := closedFlag c;
     decodeErrors := decodeErrors c |}.

Definition withPubSub (ps : PubSubConn) (c : Conn) : Conn :=
  {| connUUID := connUUID c; writerQueue := writerQueue c; handled := handled c;
     resultsConn := resultsConn c; pubsubConn := fst (Events 1%nat ps);
     pendingCalls := pendingCalls c; closedFlag := closedFlag c;
     decodeErrors := decodeErrors c |}.

Definition withPending (p : gmap UUID Z) (c : Conn) : Conn :=
  {| connUUID := connUUID c; writerQueue := writerQueue c; handled := handled c;
     resultsConn := resultsConn c; pubsubConn := pubsubConn c;
     pendingCalls := p; closedFlag := closedFlag c;
     decodeErrors := decodeErrors c |}.

(** ACK on success, NACK on an error of the collaborator. *)
Definition answer (u : UUID) (t : MsgType) (outcome : option Error) : Frame :=
  match outcome with
  | None => Ack u t
  | Some e => Nack (Some (u, t)) 500 e
  end.

(** Modelled from the spec: the inbound demux, "for each frame decoded".
    [outcome] is what the authenticator or the broker answered, [None] for
    success; [now] is the instant of the frame. *)
Definition demux (g : Globals) (now : Z) (m : Inbound) (outcome : option Error)
    (c : Conn) : Conn :=
  let c := took m c in
  match m with
  | Auth u _ =>
      match outcome with
      | None => send (Ack u AUTH) c
      | Some e => shutdown "GoingAway" e (send (Nack (Some (u, AUTH)) 401 e) c)
      end
  | CallMsg u uri _ timeout =>
      if bool_decide (uri = EmptyString) then
        send (Nack (Some (u, CALL)) 400 "empty URI") c
      else
        match outcome with
        | None =>
            withPending (<[u := now + callTimeout g timeout]> (pendingCalls c))
              (startResults (send (Ack u CALL) c))
        | Some e => send (Nack (Some (u, CALL)) 500 e) c
        end
  | PubMsg u _ _ => send (answer u PUB outcome) c
  | SubMsg u channel pattern =>
      let '(ps, e) := Subscribe outcome channel pattern (pubsubConn c) in
      send (answer u SUB e) (withPubSub ps c)
  | UnsbMsg u channel pattern =>
      let '(ps, e) := Unsubscribe outcome channel pattern (pubsubConn c) in
      send (answer u UNSB e) (withPubSub ps c)
  | Bad e =>
      let c := send (Nack None 400 e) c in
      if (3 <=? decodeErrors c)%nat then shutdown "ProtocolError" e c else c
  end.

(** The channel of a pump exists: the pump was started. *)
Definition resultsStarted (c : Conn) : bool :=
  bool_decide (is_Some (ch (rcStream (resultsConn c)))).
Definition pubsubStarted (c : Conn) : bool :=
  bool_decide (is_Some (ch (psStream (pubsubConn c)))).

(** What happens on a connection, in order: a frame arrives, the results
    pump has a result, the pubsub pump has an event, the connection is
    shut down. *)
Inductive Event : Type :=
| FrameIn (now : Z) (m : Inbound) (outcome : option Error)
| ResultArrives (rp : ResPayload)
| EventArrives (for_ : UUID) (ep : EvntPayload)
| Shutdown (text : string).

(** Modelled from the spec: one step of the engine.  Nothing is read or
    written once [closedFlag] is set; "Shutdown is idempotent". *)
Definition step (g : Globals) (c : Conn) (ev : Event) : Conn :=
  if closedFlag c then c else
  match ev with
  | FrameIn now m outcome => demux g now m outcome c
  | ResultArrives rp =>
      if resultsStarted c then
        withPending (delete (rpFor rp) (pendingCalls c)) (send (Res rp) c)
      else c
  | EventArrives u ep =>
      if pubsubStarted c then send (Evnt u ep) c else c
  | Shutdown text => shutdown "GoingAway" text c
  end.

Definition run (g : Globals) (evs : list Event) (c : Conn) : Conn :=
  foldl (step g) c evs.

(** The UUIDs of the frames that arrive in a trace. *)
Definition inboundUUID (ev : Event) : option UUID :=
  match ev with
  | FrameIn _ m _ => uuidOf m
  | _ => None
  end.

Definition inboundUUIDs (evs : list Event) : list UUID := omap inboundUUID evs.

(** The message a pump's item refers to. *)
Definition pumpRef (ev : Event) : option UUID :=
  match ev with
  | ResultArrives rp => Some (rpFor rp)
  | EventArrives u _ => Some u
  | _ => None
  end.

(** Message UUIDs are unique: no two frames of the trace carry the same. *)
Definition uniqueUUIDs (evs : list Event) : Prop := NoDup (inboundUUIDs evs).

(** The broker hands the pumps nothing about a message it has yet to be
    given: a result or an event refers to no frame that arrives later. *)
Fixpoint causal (evs : list Event) : Prop :=
  match evs with
  | [] => True
  | ev :: rest =>
      match pumpRef ev with
      | Some u => u ∉ inboundUUIDs rest
      | None => True
      end /\ causal rest
  end.

(** In [l], every frame that refers to [u] comes after an ACK or NACK
    that answers [u]. *)
Definition answeredFirst (u : UUID) (l : list Frame) : Prop :=
  forall i f, l !! i = Some f -> refOf f = Some u ->
    exists j a, (j < i)%nat /\ l !! j = Some a /\ ackOf a = Some u.

(** How many frames of [l] are an ACK or NACK that answers [u]. *)
Definition answersTo (u : UUID) (l : list Frame) : nat :=
  length (filter (fun f => ackOf f = Some u) l).

(** *** What a step adds to the writer's queue *)

(** A frame that neither answers nor refers to a message. *)
Definition quiet (f : Frame) : Prop := ackOf f = None /\ refOf f = None.

Lemma omap_quiet {A : Type} (proj : Frame -> option A) (l : list Frame) :
  Forall (fun f => proj f = None) l -> omap proj l = [].
Proof.
  induction 1 as [|f l Hf _ IH]; [done|]. simpl. by rewrite Hf.
Qed.

Lemma demux_effect (g : Globals) (now : Z) (m : Inbound) (outcome : option Error)
    (c : Conn) :
  exists a tail,
    handled (demux g now m outcome c) = handled c ++ [m] /\
    writerQueue (demux g now m outcome c) = writerQueue c ++ a :: tail /\
    ackOf a = uuidOf m /\ refOf a = None /\ Forall quiet tail.
Proof.
  destruct m as [u p|u uri args timeout|u chn args|u chn pat|u chn pat|e]; simpl.
  - destruct outcome as [e|]; simpl.
    + eexists _, [_]. rewrite <- app_assoc. repeat split. by repeat constructor.
    + eexists _, []. by repeat split.
  - destruct (bool_decide (uri = EmptyString)); [|destruct outcome as [e|]]; simpl;
      eexists _, []; by repeat split.
  - destruct outcome as [e|]; simpl; eexists _, []; by repeat split.
  - destruct outcome as [e|]; simpl; eexists _, []; by repeat split.
  - destruct outcome as [e|]; simpl; eexists _, []; by repeat split.
  - destruct (decodeErrors c) as [|[|n]]; simpl.
    + eexists _, []. by repeat split.
    + eexists _, []. by repeat split.
    + eexists _, [_]. rewrite <- app_assoc. repeat split. by repeat constructor.
Qed.

(** A step leaves the queue alone or appends to it: quiet frames only; or
    the answer to the frame it took, then quiet frames; or one frame from
    a pump. *)
Lemma step_effect (g : Globals) (c : Conn) (ev : Event) :
  (handled (step g c ev) = handled c /\
   exists tail, writerQueue (step g c ev) = writerQueue c ++ tail /\ Forall quiet tail)
  \/ (exists now m outcome a tail,
        ev = FrameIn now m outcome /\
        handled (step g c ev) = handled c ++ [m] /\
        writerQueue (step g c ev) = writerQueue c ++ a :: tail /\
        ackOf a = uuidOf m /\ refOf a = None /\ Forall quiet tail)
  \/ (exists v f,
        pumpRef ev = Some v /\
        handled (step g c ev) = handled c /\
        writerQueue (step g c ev) = writerQueue c ++ [f] /\
        ackOf f = None /\ refOf f = Some v).
Proof.
  unfold step. destruct (closedFlag c).
  { left. split; [done|]. exists []. by rewrite app_nil_r. }
  destruct ev as [now m outcome|rp|u ep|text].
  - right. left. destruct (demux_effect g now m outcome c) as (a & tail & H).
    by exists now, m, outcome, a, tail.
  - destruct (resultsStarted c).
    + right. right. by exists (rpFor rp), (Res rp).
    + left. split; [done|]. exists []. by rewrite app_nil_r.
  - destruct (pubsubStarted c).
    + right. right. by exists u, (Evnt u ep).
    + left. split; [done|]. exists []. by rewrite app_nil_r.
  - left. split; [done|]. eexists [_]. split; [done|]. by repeat constructor.
Qed.

(** The frames the demux acts on are those that arrive before the
    connection is closed. *)
Lemma handled_step (g : Globals) (c : Conn) (now : Z) (m : Inbound)
    (outcome : option Error) :
  handled (step g c (FrameIn now m outcome))
  = if closedFlag c then handled c else handled c ++ [m].
Proof.
  unfold step. destruct (closedFlag c); [done|].
  by destruct (demux_effect g now m outcome c) as (a & tail & -> & _).
Qed.

(** *** Order in the queue *)

Lemma answeredFirst_app (u : UUID) (l new : list Frame) :
  answeredFirst u l ->
  (forall f, f ∈ new -> refOf f = Some u -> exists a, a ∈ l /\ ackOf a = Some u) ->
  answeredFirst u (l ++ new).
Proof.
  intros Hl Hnew i f Hi Hf. apply lookup_app_Some in Hi.
  destruct Hi as [Hi|[Hlen Hi]].
  - destruct (Hl i f Hi Hf) as (j & a & Hj & Ha & Hu).
    exists j, a. split; [done|]. split; [|done]. by apply lookup_app_l_Some.
  - destruct (Hnew f) as (a & Ha & Hu); [by eapply list_elem_of_lookup_2 | done |].
    apply list_elem_of_lookup in Ha. destruct Ha as [j Hj].
    exists j, a. split; [|split; [by apply lookup_app_l_Some | done]].
    apply lookup_lt_Some in Hj. lia.
Qed.

Lemma answersTo_omap (u : UUID) (l : list Frame) :
  answersTo u l = length (filter (fun v => v = u) (omap ackOf l)).
Proof.
  unfold answersTo. induction l as [|f l IH]; [done|].
  rewrite filter_cons. simpl. destruct (ackOf f) as [v|] eqn:Hf.
  - rewrite filter_cons. destruct (decide (Some v = Some u)) as [[= ->]|Hne].
    + rewrite decide_True by done. simpl. by rewrite IH.
    + rewrite decide_False by congruence. done.
  - rewrite decide_False by done. done.
Qed.

Lemma filter_absent (u : UUID) (l : list UUID) :
  u ∉ l -> filter (fun v => v = u) l = [].
Proof.
  induction l as [|v l IH]; [done|].
  rewrite not_elem_of_cons, filter_cons. intros [Hne Hl].
  rewrite decide_False by done. by apply IH.
Qed.

Lemma NoDup_once (u : UUID) (l : list UUID) :
  NoDup l -> u ∈ l -> length (filter (fun v => v = u) l) = 1%nat.
Proof.
  induction 1 as [|v l Hv Hnd IH]; [by intros ?%not_elem_of_nil|].
  rewrite elem_of_cons, filter_cons. intros [->|Hin].
  - rewrite decide_True by done. simpl. by rewrite filter_absent.
  - rewrite decide_False by (intros ->; done). by apply IH.
Qed.

(** *** The invariant of a run

    With [rest] the events still to come: the answers in the queue are,
    in order, the UUIDs of the frames handled; those UUIDs and the UUIDs
    still to arrive are all different; every frame handled was answered
    before anything referred to it; nothing in the queue refers to a
    frame still to arrive. *)
Definition K (c : Conn) (rest : list Event) : Prop :=
  omap ackOf (writerQueue c) = omap uuidOf (handled c) /\
  NoDup (omap uuidOf (handled c) ++ inboundUUIDs rest) /\
  (forall u, u ∈ omap uuidOf (handled c) -> answeredFirst u (writerQueue c)) /\
  (forall u, u ∈ omap refOf (writerQueue c) -> u ∉ inboundUUIDs rest) /\
  causal rest.

Lemma K_new (uuid : UUID) (evs : list Event) :
  uniqueUUIDs evs -> causal evs -> K (newConn uuid) evs.
Proof.
  intros Hu Hc. unfold K. simpl. repeat split; try done.
  intros u H. by apply not_elem_of_nil in H.
Qed.

Lemma quiet_no_ack (tail : list Frame) : Forall quiet tail -> omap ackOf tail = [].
Proof.
  intros H. apply omap_quiet. eapply Forall_impl; [exact H|]. by intros f [? _].
Qed.

Lemma quiet_no_ref (tail : list Frame) : Forall quiet tail -> omap refOf tail = [].
Proof.
  intros H. apply omap_quiet. eapply Forall_impl; [exact H|]. by intros f [_ ?].
Qed.

Lemma quiet_not_ref (tail : list Frame) (f : Frame) (u : UUID) :
  Forall quiet tail -> f ∈ tail -> refOf f = Some u -> False.
Proof.
  intros H Hin Hf. rewrite Forall_forall in H. destruct (H f Hin) as [_ Hq]. congruence.
Qed.

Lemma inboundUUIDs_cons (ev : Event) (rest : list Event) :
  inboundUUIDs (ev :: rest) =
    match inboundUUID ev with Some u => u :: inboundUUIDs rest | None => inboundUUIDs rest end.
Proof. unfold inboundUUIDs. simpl. by destruct (inboundUUID ev). Qed.

Lemma NoDup_drop_middle (l : list UUID) (ev : Event) (rest : list Event) :
  NoDup (l ++ inboundUUIDs (ev :: rest)) -> NoDup (l ++ inboundUUIDs rest).
Proof.
  rewrite inboundUUIDs_cons. destruct (inboundUUID ev) as [u|]; [|done].
  rewrite !NoDup_app. intros (Hl & Hdisj & Hr). apply NoDup_cons in Hr as [_ Hr].
  repeat split; [done| |done]. intros x Hx Hin. apply (Hdisj x Hx). by right.
Qed.

Lemma not_inbound_later (u : UUID) (ev : Event) (rest : list Event) :
  u ∉ inboundUUIDs (ev :: rest) -> u ∉ inboundUUIDs rest.
Proof.
  rewrite inboundUUIDs_cons. destruct (inboundUUID ev); [|done].
  rewrite not_elem_of_cons. by intros [_ ?].
Qed.

Lemma K_step (g : Globals) (c : Conn) (ev : Event) (rest : list Event) :
  K c (ev :: rest) -> K (step g c ev) rest.
Proof.
  intros (Hack & Hnd & Hfirst & Hrefs & Hcausal).
  destruct Hcausal as [Hhead Hcausal]. unfold K.
  destruct (step_effect g c ev)
    as [(Hh & tail & Hw & Hq)
       |[(now & m & outcome & a & tail & -> & Hh & Hw & Ha & Hr & Hq)
        |(v & f & Hv & Hh & Hw & Ha & Hr)]].
  - (* quiet frames only *)
    rewrite Hh, Hw. repeat split.
    + by rewrite omap_app, (quiet_no_ack tail), app_nil_r.
    + by eapply NoDup_drop_middle.
    + intros u Hu. apply answeredFirst_app; [by apply Hfirst|].
      intros f' Hin Hf'. exfalso. by eapply quiet_not_ref.
    + intros u. rewrite omap_app, (quiet_no_ref tail), app_nil_r by done.
      intros Hu. eapply not_inbound_later. by apply Hrefs.
    + done.
  - (* the answer to a frame *)
    rewrite Hh, Hw.
    assert (Htail : omap ackOf (a :: tail) = omap uuidOf [m]).
    { change (a :: tail) with ([a] ++ tail).
      rewrite omap_app, (quiet_no_ack tail), app_nil_r by done.
      simpl. by rewrite Ha. }
    assert (Hnoref : forall f' u, f' ∈ a :: tail -> refOf f' = Some u -> False).
    { intros f' u [->|Hin]%elem_of_cons Hf'; [congruence | by eapply quiet_not_ref]. }
    rewrite inboundUUIDs_cons in Hnd, Hrefs. simpl in Hnd, Hrefs.
    repeat split.
    + by rewrite !omap_app, Hack, Htail.
    + rewrite omap_app. simpl. destruct (uuidOf m) as [u|]; simpl.
      * by rewrite <- app_assoc.
      * by rewrite app_nil_r.
    + intros u Hu. apply answeredFirst_app.
      * rewrite omap_app, elem_of_app in Hu. destruct Hu as [Hu|Hu]; [by apply Hfirst|].
        intros i f' Hi Hf'. exfalso.
        assert (Hin : u ∈ omap refOf (writerQueue c)).
        { apply list_elem_of_omap. exists f'. split; [|done].
          by eapply list_elem_of_lookup_2. }
        apply Hrefs in Hin. simpl in Hu. destruct (uuidOf m) as [v|]; simpl in Hu.
        -- apply list_elem_of_singleton in Hu. subst v. apply Hin. by left.
        -- by apply not_elem_of_nil in Hu.
      * intros f' Hin Hf'. exfalso. by eapply Hnoref.
    + intros u. rewrite omap_app. intros Hu. apply elem_of_app in Hu.
      destruct Hu as [Hu|Hu].
      * apply Hrefs in Hu. destruct (uuidOf m); [|done].
        apply not_elem_of_cons in Hu. by destruct Hu.
      * exfalso. apply list_elem_of_omap in Hu. destruct Hu as (f' & Hin & Hf').
        by eapply Hnoref.
    + done.
  - (* a frame from a pump *)
    rewrite Hh, Hw. rewrite Hv in Hhead.
    assert (Hnone : inboundUUID ev = None) by (destruct ev; simpl in *; done).
    rewrite inboundUUIDs_cons, Hnone in Hnd, Hrefs.
    repeat split.
    + rewrite omap_app. simpl. by rewrite Ha, app_nil_r.
    + done.
    + intros u Hu. apply answeredFirst_app; [by apply Hfirst|].
      intros f' ->%list_elem_of_singleton Hf'.
      rewrite <- Hack in Hu. apply list_elem_of_omap in Hu.
      destruct Hu as (a & Hin & Hau). by exists a.
    + intros u. rewrite omap_app. simpl. rewrite Hr. intros Hu.
      apply elem_of_app in Hu. destruct Hu as [Hu|Hu]; [by apply Hrefs|].
      apply list_elem_of_singleton in Hu. by subst u.
    + done.
Qed.

Lemma K_run (g : Globals) (evs : list Event) (c : Conn) :
  K c evs -> K (run g evs c) [].
Proof.
  revert c. induction evs as [|ev evs IH]; intros c HK; [done|].
  apply IH. by apply K_step.
Qed.


(** *** A connection, run *)

Definition sampleTrace : list Event :=
  [FrameIn 0 (CallMsg 1 "echo" "hi" Second) None;
   ResultArrives {| rpMsgUUID := 9; rpFor := 1; rpConnUUID := 7; rpArgs := "hi" |};
   FrameIn 5 (PubMsg 2 "news" "1") (Some "broker unavailable"%string);
   FrameIn 6 (Bad "unexpected end of JSON input") None;
   FrameIn 7 (SubMsg 3 "news" false) None;
   EventArrives 4 {| epMsgUUID := 8; epChannel := "news"; epPattern := ""; epArgs := "2" |}].

Example sampleTrace_queue :
  writerQueue (run init sampleTrace (newConn 7%nat)) =
    [Ack 1%nat CALL;
     Res {| rpMsgUUID := 9; rpFor := 1; rpConnUUID := 7; rpArgs := "hi" |};
     Nack (Some (2%nat, PUB)) 500 "broker unavailable";
     Nack None 400 "unexpected end of JSON input";
     Ack 3%nat SUB;
     Evnt 4%nat {| epMsgUUID := 8; epChannel := "news"; epPattern := ""; epArgs := "2" |}].
Proof. vm_compute. reflexivity. Qed.

(** A result that arrives before any call was accepted finds no pump. *)
Example result_without_pump :
  writerQueue
    (run init [ResultArrives {| rpMsgUUID := 9; rpFor := 1; rpConnUUID := 7; rpArgs := "" |}]
       (newConn 7%nat)) = [].
Proof. reflexivity. Qed.

(** Three decode errors in a row close the connection; what arrives
    afterwards is not handled. *)
Example three_bad_frames :
  let c := run init [FrameIn 0 (Bad "e1") None; FrameIn 1 (Bad "e2") None;
                     FrameIn 2 (Bad "e3") None; FrameIn 3 (PubMsg 2 "news" "1") None]
             (newConn 7%nat) in
  writerQueue c = [Nack None 400 "e1"; Nack None 400 "e2"; Nack None 400 "e3";
                   CloseFrame "ProtocolError" "e3"]
  /\ closedFlag c = true /\ length (handled c) = 3%nat.
Proof. vm_compute. done. Qed.


End Server.
